(** * SS-APACT: delay-and-sum reconstruction, wavefront models and weights

    A shallow embedding of [utils/reconstruction.py] and of the tensor
    utilities of [utils/utils_torch.py].

    Conventions of the model.
    - Floating-point numbers are idealised as mathematical reals
      (type [R] of the Standard Library).  Rounding, overflow and NaN
      are outside the model; where the source divides, the theorems
      name the divisor that has to be non-zero.
    - Python exceptions are values of [exn]; a function that may raise
      returns a [result].
    - Indexing follows Python and NumPy: an index outside an array raises
      [IndexError].  [delay_and_sum] is compiled by numba, which does not
      check bounds unless asked to; what is [IndexError] here is there an
      unchecked access outside the array.
    - NumPy arrays are lists: a 1-D array is a [list R], a 2-D array is
      a list of rows, a 3-D array a list of 2-D arrays.  A 2-D array is
      well formed when all its rows have the same length.
    - The source's parameter [R] (a radius) is written [R_], because
      [R] names the type of real numbers. *)

From Stdlib Require Import String.
From Stdlib Require Import Reals Lra Lia ZArith Bool List Sorted.
Import ListNotations.
Open Scope string_scope.
Open Scope list_scope.
Open Scope R_scope.

(** ** Exceptions and the error monad *)

Inductive exn : Type :=
| NotImplementedError
| ValueError
| IndexError
| ZeroDivisionError.

Inductive result (A : Type) : Type :=
| Ok (a : A)
| Raise (e : exn).

Arguments Ok {A} a.
Arguments Raise {A} e.

Definition bind {A B : Type} (m : result A) (f : A -> result B) : result B :=
  match m with
  | Ok a => f a
  | Raise e => Raise e
  end.

Notation "x <- m ;; k" := (bind m (fun x => k))
  (at level 61, m at next level, right associativity).

(** [for x in l: acc = body(acc, x)], stopping at the first exception. *)
Fixpoint foldM {A S : Type} (body : S -> A -> result S) (l : list A) (acc : S)
  : result S :=
  match l with
  | [] => Ok acc
  | x :: l' => acc' <- body acc x ;; foldM body l' acc'
  end.

(** [[f(x) for x in l]], stopping at the first exception. *)
Fixpoint mapM {A B : Type} (f : A -> result B) (l : list A) : result (list B) :=
  match l with
  | [] => Ok []
  | x :: l' => y <- f x ;; ys <- mapM f l' ;; Ok (y :: ys)
  end.

(** ** The NumPy operations the source calls *)

Module Np.

(** [a.sum()] of a 1-D array. *)
Definition sum (l : list R) : R := fold_right Rplus 0 l.

(** [a.sum()] of a 2-D and of a 3-D array: the sum of all elements. *)
Definition sum2 (m : list (list R)) : R := sum (map sum m).
Definition sum3 (a : list (list (list R))) : R := sum (map sum2 a).

(** [a.mean()] of a 1-D array. *)
Definition mean (l : list R) : R := sum l / INR (length l).

(** [np.zeros(n)] and [np.zeros((h, w))]. *)
Definition zeros (n : nat) : list R := repeat 0 n.
Definition zeros2 (h w : nat) : list (list R) := repeat (zeros w) h.

(** [a[-1] = v] on a non-empty 1-D array. *)
Definition set_last (l : list R) (v : R) : list R := removelast l ++ [v].

(** [np.linspace(start, stop, num)]: [num] evenly spaced samples
    [start + i * step] with [step = (stop - start) / (num - 1)]; with more
    than one sample the last one is [stop] itself; a single sample is
    [start]; a negative [num] raises [ValueError]. *)
Definition linspace (start stop : R) (num : Z) : result (list R) :=
  if (num <? 0)%Z then Raise ValueError
  else
    let n := Z.to_nat num in
    let step := (stop - start) / INR (n - 1) in
    let y := map (fun i => INR i * step + start) (seq 0 n) in
    Ok (if (1 <? n)%nat then set_last y stop else y).

(** [np.argmin(a)] of a 1-D array: the first index of the least element;
    [ValueError] on an empty array. *)
Fixpoint argmin_from (best_i : nat) (best : R) (i : nat) (l : list R) : nat :=
  match l with
  | [] => best_i
  | x :: l' =>
      if Rlt_dec x best then argmin_from i x (S i) l'
      else argmin_from best_i best (S i) l'
  end.

Definition argmin (l : list R) : result nat :=
  match l with
  | [] => Raise ValueError
  | x :: l' => Ok (argmin_from 0%nat x 1%nat l')
  end.

(** Broadcasting of two axis lengths: equal lengths, or one of them 1. *)
Definition broadcast_dim (a b : nat) : result nat :=
  if (a =? 1)%nat then Ok b
  else if (b =? 1)%nat then Ok a
  else if (a =? b)%nat then Ok a
  else Raise ValueError.

(** Element [i] of a 1-D array stretched along a broadcast axis. *)
Definition stretch (l : list R) (i : nat) : R :=
  if (length l =? 1)%nat then nth 0 l 0 else nth i l 0.

(** [f(a, b)] elementwise on two 1-D arrays, with broadcasting. *)
Definition broadcast2 (f : R -> R -> R) (a b : list R) : result (list R) :=
  n <- broadcast_dim (length a) (length b) ;;
  Ok (map (fun i => f (stretch a i) (stretch b i)) (seq 0 n)).

(** [a[i]] on a 1-D array, [a[i, j]] on a 2-D array, for [i, j >= 0]. *)
Definition get {A : Type} (l : list A) (i : nat) : result A :=
  match nth_error l i with
  | Some x => Ok x
  | None => Raise IndexError
  end.

Definition get2 (m : list (list R)) (i j : nat) : result R :=
  row <- get m i ;; get row j.

(** [a[i] = v], for [i >= 0]. *)
Fixpoint set {A : Type} (l : list A) (i : nat) (v : A) : result (list A) :=
  match l, i with
  | [], _ => Raise IndexError
  | _ :: l', O => Ok (v :: l')
  | x :: l', S i' => l'' <- set l' i' v ;; Ok (x :: l'')
  end.

(** [a[i, j] = v] on a 2-D array. *)
Definition set2 (m : list (list R)) (i j : nat) (v : R)
  : result (list (list R)) :=
  row <- get m i ;; row' <- set row j v ;; set m i row'.

(** [a.shape[1]] of a 2-D array with at least one row. *)
Definition shape1 (m : list (list R)) : nat := length (hd [] m).

(** [np.mean(a)] of a 2-D array: the sum of all elements over their
    number. *)
Definition mean2 (m : list (list R)) : R := sum2 m / INR (length (concat m)).

(** [np.fromfunction(f, (h, w), dtype=float)]: the array of [f(x, y)] over
    the indices [x < h], [y < w]. *)
Definition fromfunction (f : R -> R -> R) (h w : nat) : list (list R) :=
  map (fun x => map (fun y => f (INR x) (INR y)) (seq 0 w)) (seq 0 h).

(** [np.arctan2(x1, x2)]: the angle in [(-pi, pi]] of the point
    [(x2, x1)], that is [atan (x1 / x2)] moved to the right quadrant. *)
Definition arctan2 (x1 x2 : R) : R :=
  if Rlt_dec 0 x2 then atan (x1 / x2)
  else if Rlt_dec x2 0 then
    if Rle_dec 0 x1 then atan (x1 / x2) + PI else atan (x1 / x2) - PI
  else if Rlt_dec 0 x1 then PI / 2
  else if Rlt_dec x1 0 then - (PI / 2)
  else 0.

End Np.

(** ** Delay schedule *)

Definition get_delays (R_ v0 v1 : R) (n_delays : Z) (mode : string)
  : result (list R) :=
  if String.eqb mode "uniform" then
    Np.linspace ((1 - v0 / v1) * R_ * 0) ((1 - v0 / v1) * R_ * 1.2) n_delays
  else if String.eqb mode "quadric" then
    ls <- Np.linspace 0 1 n_delays ;;
    Ok (map (fun u => (1 - v0 / v1) * R_ * sqrt u) ls)
  else Raise NotImplementedError.

(** ** Delay-and-sum beamformer *)

(** An argument that is a scalar (the default [0]) or a 1-D array. *)
Inductive scalar_or_array : Type :=
| Scalar (c : R)
| Array (a : list R).

(** [a + ring_error] for a 1-D array [a]. *)
Definition add_ring_error (a : list R) (ring_error : scalar_or_array)
  : result (list R) :=
  match ring_error with
  | Scalar c => Ok (map (fun d => d + c) a)
  | Array e => Np.broadcast2 Rplus a e
  end.

Section DelayAndSum.

Variables (R_ring T_sample v0 : R).
Variable pa_signal : list (list R).
Variables (x_vec y_vec : list R).
Variable d_delay : R.
Variable ring_error : scalar_or_array.

Definition N_transducer : nat := length pa_signal.
Definition delta_angle : R := 2 * PI / INR N_transducer.
Definition angle_transducer : list R :=
  map (fun k => delta_angle * (INR k + 1)) (seq 0 N_transducer).
Definition x_transducer : list R :=
  map (fun a => R_ring * sin (a - PI)) angle_transducer.
Definition y_transducer : list R :=
  map (fun a => R_ring * cos (a - PI)) angle_transducer.

(** Line 68: the path length from every transducer to the grid point
    [(x_vec[s], y_vec[t])]. *)
Definition distance_to_transducer (s t : nat) : result (list R) :=
  add_ring_error
    (map (fun p => sqrt ((fst p - nth s x_vec 0) ^ 2
                         + (snd p - nth t y_vec 0) ^ 2) - d_delay)
         (combine x_transducer y_transducer))
    ring_error.

(** Line 70: the sample index of a path length.  A zero divisor raises
    (the compiled function keeps Python's error model). *)
Definition sample_index (d : R) : result Z :=
  if Req_dec_T (v0 * T_sample) 0 then Raise ZeroDivisionError
  else Ok (Zfloor (d / (v0 * T_sample))).

(** Line 71: the guard of the read. *)
Definition guard (id : Z) : bool :=
  (0 <? id)%Z && (id <=? Z.of_nat (Np.shape1 pa_signal))%Z.

(** Lines 70-74: the contribution of transducer [k]. *)
Definition related (dist : list R) (k : nat) : result R :=
  dk <- Np.get dist k ;;
  id <- sample_index dk ;;
  if guard id then Np.get2 pa_signal k (Z.to_nat id) else Ok 0.

(** Lines 68-75: one pixel.  [related_data] is overwritten at every index
    [k] before its mean is taken, so each pixel sees a fresh array. *)
Definition pixel (s t : nat) : result R :=
  dist <- distance_to_transducer s t ;;
  related_data <- mapM (related dist) (seq 0 N_transducer) ;;
  Ok (Np.mean related_data).

(** Lines 56-76.  Without transducers, [2 * np.pi / N_transducer] of line
    59 divides by zero. *)
Definition delay_and_sum : result (list (list R)) :=
  let H := length x_vec in
  let W := length y_vec in
  let Image := Np.zeros2 (length x_vec) (length y_vec) in
  if (N_transducer =? 0)%nat then Raise ZeroDivisionError
  else
    foldM (fun Image s =>
             foldM (fun Image t =>
                      v <- pixel s t ;;
                      Np.set2 Image t s v)
                   (seq 0 W) Image)
          (seq 0 H) Image.

End DelayAndSum.

(** ** Wavefront models *)

Definition get_r_C0 (i j : Z) (R_ l v0 v1 : R) : R * R :=
  let x := IZR (j - 12) * l / 4 in
  let y := IZR (12 - i) * l / 4 in
  let r := sqrt (x ^ 2 + y ^ 2) in
  let C0 := Rmax 0 ((1 - v0 / v1) * R_ * (1 - (r ^ 2) / (4 * R_ ^ 2))) in
  (r, C0).

Definition get_fourier_params (r phi R_ v0 v1 : R) : R * R * R * R * R :=
  let C0 := (1 - v0 / v1) * R_ * (1 - (r ^ 2) / (4 * R_ ^ 2)) in
  let C1 := (1 - v0 / v1) * r in
  let C2 := (1 - v0 / v1) * r ^ 2 / (4 * R_) in
  let phi1 := phi in
  let phi2 := phi in
  (C0, C1, phi1, C2, phi2).

Definition wavefront_fourier (C0 C1 phi1 C2 phi2 : R) : R -> R :=
  fun theta => C0 + C1 * cos (theta - phi1) + C2 * cos (2 * (theta - phi2)).

(** A comparison used as a factor: [True] is 1 and [False] is 0. *)
Definition indicator_ge (a b : R) : R := if Rge_dec a b then 1 else 0.

Definition wavefront_real (R_ r phi v0 v1 : R) : R -> R :=
  if Rlt_dec r R_ then
    fun theta =>
      (1 - v0 / v1)
      * (sqrt (R_ ^ 2 - (r * sin (theta - phi)) ^ 2) + r * cos (theta - phi))
  else
    fun theta =>
      (1 - v0 / v1) * 2
      * sqrt (Rmax (R_ ^ 2 - (r * sin (theta - phi)) ^ 2) 0)
      * indicator_ge (cos (phi - theta)) 0.

(** ** Weights of the delay channels *)

(** The argument [C0]: a float, or a per-pixel field of shape [[H, W]]. *)
Inductive C0_arg : Type :=
| C0_scalar (c : R)
| C0_field (f : list (list R)).

Definition map2d {A B : Type} (g : A -> B) (m : list (list A)) : list (list B) :=
  map (map g) m.

Definition map3d {A B : Type} (g : A -> B) (a : list (list (list A)))
  : list (list (list B)) :=
  map (map2d g) a.

(** [(delays.reshape([n_delays,1,1]) - C0) ** 2], of shape [[n_delays, H, W]]
    ([[n_delays, 1, 1]] for a float [C0]). *)
Definition sq_distance (C0 : C0_arg) (delays : list R) : list (list (list R)) :=
  match C0 with
  | C0_scalar c => map (fun d => [[(d - c) ^ 2]]) delays
  | C0_field f => map (fun d => map2d (fun c => (d - c) ^ 2) f) delays
  end.

(** [np.abs(delays - C0)], flattened as [np.argmin] reads it. *)
Definition abs_diff_flat (C0 : C0_arg) (delays : list R) : result (list R) :=
  match C0 with
  | C0_scalar c => Ok (map (fun d => Rabs (d - c)) delays)
  | C0_field f =>
      rows <- mapM (fun row => Np.broadcast2 (fun d c => Rabs (d - c)) delays row) f ;;
      Ok (concat rows)
  end.

Definition get_weights (C0 : C0_arg) (delays : list R) (attention : string)
  : result (list (list (list R))) :=
  let n_delays := length delays in
  if String.eqb attention "uniform" then
    Ok (repeat [[1]] n_delays)
  else if String.eqb attention "euclidean" then
    let distance := sq_distance C0 delays in
    let weights :=
      map3d (fun e => e / Np.sum3 (map3d exp distance)) (map3d exp distance) in
    Ok (map3d (fun w => w / Np.sum3 weights * INR n_delays) weights)
  else if String.eqb attention "onehot" then
    let weights := repeat [[0]] n_delays in
    a <- abs_diff_flat C0 delays ;;
    k <- Np.argmin a ;;
    Np.set weights k [[1]]
  else Raise NotImplementedError.

(** ** Gaussian window *)

Definition get_gaussian_window (sigma : R) (size : Z)
  : result (list (list R)) :=
  if (size <? 0)%Z then Raise ValueError
  else
    let function := fun x y =>
      exp ((- ((x - (IZR size - 1) / 2) ^ 2 + (y - (IZR size - 1) / 2) ^ 2))
           / (2 * (sigma ^ 2))) in
    let kernel := Np.fromfunction function (Z.to_nat size) (Z.to_nat size) in
    Ok (map2d (fun k => k / Np.mean2 kernel) kernel).

(** ** Grid coordinates *)

Definition get_coordinates (i j : Z) (l : R) : R * R * R * R :=
  let x := IZR (j - 12) * l / 4 in
  let y := IZR (12 - i) * l / 4 in
  let r := sqrt (x ^ 2 + y ^ 2) in
  let phi := Np.arctan2 x y in
  (x, y, r, phi).

(** ** Two-circle wavefront model *)

Definition wavefront_double_circle (x y R1 R2 x2 y2 v0 v1 v2 : R) : R -> R :=
  let r1 := sqrt (x ^ 2 + y ^ 2) in
  let phi1 := Np.arctan2 x y in
  let r2 := sqrt ((x - x2) ^ 2 + (y - y2) ^ 2) in
  let phi2 := Np.arctan2 (x - x2) (y - y2) in
  let l12 :=
    if Rlt_dec r2 R2 then
      (fun theta =>
         sqrt (R1 ^ 2 - (r1 * sin (theta - phi1)) ^ 2) + r1 * cos (theta - phi1),
       fun theta =>
         sqrt (R2 ^ 2 - (r2 * sin (theta - phi2)) ^ 2) + r2 * cos (theta - phi2))
    else if Rlt_dec r1 R1 then
      (fun theta =>
         sqrt (R1 ^ 2 - (r1 * sin (theta - phi1)) ^ 2) + r1 * cos (theta - phi1),
       fun theta =>
         2 * sqrt (Rmax (R2 ^ 2 - (r2 * sin (theta - phi2)) ^ 2) 0)
         * indicator_ge (cos (phi2 - theta)) 0)
    else
      (fun theta =>
         2 * sqrt (Rmax (R1 ^ 2 - (r1 * sin (theta - phi1)) ^ 2) 0)
         * indicator_ge (cos (phi1 - theta)) 0,
       fun theta =>
         2 * sqrt (Rmax (R2 ^ 2 - (r2 * sin (theta - phi2)) ^ 2) 0)
         * indicator_ge (cos (phi2 - theta)) 0) in
  let l1 := fst l12 in
  let l2 := snd l12 in
  fun theta => (1 - v0 / v1) * (l1 theta - l2 theta) + (1 - v0 / v2) * l2 theta.

(** ** Tensor utilities of [utils/utils_torch.py]

    A tensor is seen through its last two axes, as a list of rows; the
    functions act alike on every matrix of a batch. *)

Module Torch.

(** [F.pad(img, (left, right, top, bottom))] with the default zero fill, on
    a matrix with at least one row. *)
Definition pad (img : list (list R)) (left right top bottom : nat)
  : list (list R) :=
  let width := (left + Np.shape1 img + right)%nat in
  repeat (Np.zeros width) top
  ++ map (fun row => Np.zeros left ++ row ++ Np.zeros right) img
  ++ repeat (Np.zeros width) bottom.

(** [a[lo:hi]] for [0 <= lo] and [0 <= hi]; the bounds are clipped to the
    length. *)
Definition slice {A : Type} (lo hi : nat) (a : list A) : list A :=
  firstn (hi - lo) (skipn lo a).

(** [torch.linspace(start, end, steps)]: [steps] evenly spaced values
    from [start] to [end], both included; a single step gives [start]. *)
Definition linspace (start stop : R) (steps : nat) : list R :=
  map (fun i => start + INR i * ((stop - start) / INR (steps - 1))) (seq 0 steps).

(** [torch.meshgrid(a, b, indexing='xy')]: two matrices of [len(b)] rows and
    [len(a)] columns, the first with [a] along every row, the second with
    [b] down every column. *)
Definition meshgrid_xy (a b : list R) : list (list R) * list (list R) :=
  (map (fun _ => a) b, map (fun y => map (fun _ => y) a) b).

(** An elementwise operation on two matrices of the same shape. *)
Definition map2_2d (f : R -> R -> R) (a b : list (list R)) : list (list R) :=
  map (fun rows => map (fun p => f (fst p) (snd p)) (combine (fst rows) (snd rows)))
      (combine a b).

(** [a % b] on floats: the remainder with the sign of the divisor. *)
Definition remainder (a b : R) : R := a - b * IZR (Zfloor (a / b)).

End Torch.

Definition pad_double (img : list (list R)) : list (list R) :=
  let H := length img in
  let W := Np.shape1 img in
  Torch.pad img (W / 2) (W / 2) (H / 2) (H / 2).

Definition crop_half (img : list (list R)) : list (list R) :=
  let H := length img in
  let W := Np.shape1 img in
  map (Torch.slice (W / 4) (3 * W / 4)) (Torch.slice (H / 4) (3 * H / 4) img).

(** [N] is a count of grid points, a natural number; the [device] of the
    source has no counterpart here. *)
Definition get_fourier_coord (N : nat) (l : R)
  : list (list R) * list (list R) :=
  let fx1D := Torch.linspace (- PI / l) (PI / l) N in
  let fy1D := Torch.linspace (- PI / l) (PI / l) N in
  let '(fx2D, fy2D) := Torch.meshgrid_xy fx1D fy1D in
  let k2D :=
    Torch.map2_2d (fun fx fy => sqrt (fx ^ 2 + fy ^ 2) * INR N) fx2D fy2D in
  let theta2D :=
    Torch.map2_2d (fun fx fy => Np.arctan2 fy fx + PI / 2) fx2D fy2D in
  (k2D, map2d (fun theta => Torch.remainder theta (2 * PI)) theta2D).

(** What [get_total_params] reads of a [torch.nn.Parameter]. *)
Record parameter : Type := {
  nelement : nat;
  requires_grad : bool
}.

(** [model] stands for the sequence [model.parameters()]. *)
Definition get_total_params (model : list parameter) : nat :=
  list_sum (map (fun param =>
                   if requires_grad param then nelement param else 0%nat)
                model).

(** ** Vocabulary of the statements *)

(** The closed form of the zeroth coefficient, as [get_fourier_params]
    computes it. *)
Definition C0_closed_form (r R_ v0 v1 : R) : R :=
  (1 - v0 / v1) * R_ * (1 - (r ^ 2) / (4 * R_ ^ 2)).

(** All the elements of a 3-D array, in storage order. *)
Definition flat3 (a : list (list (list R))) : list R := concat (concat a).

(** The sum of a weight field along the delay axis at pixel [(h, c)]. *)
Definition delay_axis_sum (w : list (list (list R))) (h c : nat) : R :=
  Np.sum (map (fun plane => nth c (nth h plane []) 0) w).

(** The pixels of the argument [C0]; a float stands for a single pixel. *)
Definition C0_pixels (C0 : C0_arg) : list R :=
  match C0 with
  | C0_scalar c => [c]
  | C0_field f => concat f
  end.

(** The shape [(rows, columns)] claimed for a 2-D array: [rows] rows, each
    of [columns] elements. *)
Definition has_shape (m : list (list R)) (rows columns : nat) : Prop :=
  length m = rows /\ Forall (fun row => length row = columns) m.

(** Cell [[t, s]] of [Image] holds the pixel [px s t] of the grid point
    [(x_vec[s], y_vec[t])], and the assignment that put it there was inside
    the shape [(H, W)]. *)
Definition written (px : nat -> nat -> result R) (H W : nat)
  (Image : list (list R)) (s t : nat) : Prop :=
  (t < H)%nat /\ (s < W)%nat
  /\ exists v, px s t = Ok v /\ Np.get2 Image t s = Ok v.

(** The state of the two loops of [delay_and_sum] when the columns before
    [s] are complete and column [s] is complete before row [j]. *)
Definition row_done (px : nat -> nat -> result R) (H W : nat) (s j : nat)
  (Image : list (list R)) : Prop :=
  has_shape Image H W
  /\ (forall s' t, (s' < s)%nat -> (t < W)%nat -> written px H W Image s' t)
  /\ (forall t, (t < j)%nat -> written px H W Image s t).

(** The weight of delay [k] at pixel [(h, c)] of a weight field. *)
Definition weight_at (w : list (list (list R))) (k h c : nat) : R :=
  nth c (nth h (nth k w []) []) 0.

(** The weight field of shape [[n, 1, 1]] that is 1 at delay [k] and 0 at
    the other delays. *)
Definition one_hot (n k : nat) : list (list (list R)) :=
  map (fun i => [[if (i =? k)%nat then 1 else 0]]) (seq 0 n).

(** The path length of line 68 from transducer [k] to the grid point
    [(x_vec[s], y_vec[t])], for a scalar ring error [e]. *)
Definition path_length (R_ring : R) (pa_signal : list (list R))
  (x_vec y_vec : list R) (d_delay e : R) (s t k : nat) : R :=
  sqrt ((nth k (x_transducer R_ring pa_signal) 0 - nth s x_vec 0) ^ 2
        + (nth k (y_transducer R_ring pa_signal) 0 - nth t y_vec 0) ^ 2)
  - d_delay + e.

(** What transducer [k] adds to a pixel at path length [d] when the sample
    index is not [num_samples]: the sample at the index, or 0 when the
    index is outside the recorded window. *)
Definition contribution (T_sample v0 : R) (pa_signal : list (list R))
  (k : nat) (d : R) : R :=
  let id := Zfloor (d / (v0 * T_sample)) in
  if (id <=? 0)%Z || (Z.of_nat (Np.shape1 pa_signal) <? id)%Z then 0
  else nth (Z.to_nat id) (nth k pa_signal []) 0.

(** A function applied to the value of a call that returns; an exception
    passes unchanged. *)
Definition map_result {A B : Type} (g : A -> B) (r : result A) : result B :=
  match r with
  | Ok a => Ok (g a)
  | Raise e => Raise e
  end.

(** A matrix multiplied by the scalar [c]. *)
Definition scale2d (c : R) (m : list (list R)) : list (list R) :=
  map2d (fun u => c * u) m.

(** The range of the 'euclidean' weights in double precision: [exp 600] is
    about 3.8e260, so with squared distances up to 600 every [exp] of line
    168 is finite, and so is the sum of as many of them as an array can hold
    (fewer than 2^64); beyond 709.78 [exp] overflows to infinity and the
    weights are NaN. *)
Definition sq_distance_bound : R := 600.

(** Every squared distance between a delay and a pixel of [C0] is within
    [sq_distance_bound]. *)
Definition exp_in_range (C0 : C0_arg) (delays : list R) : Prop :=
  Forall (fun d =>
            Forall (fun c => (d - c) ^ 2 <= sq_distance_bound) (C0_pixels C0))
         delays.

(** The range of the Gaussian window in double precision: the exponents of
    line 80 are between [- (size - 1)^2 / (4 sigma^2)] and 0; with
    [size^2 <= 2800 sigma^2] they are above -700, and [exp (-700)], about
    1e-304, is still a positive double, where below about -745 [exp]
    underflows to 0.  For [size >= 1] the bound also keeps [sigma**2] from
    underflowing to 0, where the exponent would be [0 / 0]. *)
Definition gaussian_in_range (sigma : R) (size : Z) : Prop :=
  IZR size ^ 2 <= 4 * 700 * sigma ^ 2.

(** * Properties *)

(** ** The error monad *)

Lemma bind_Ok_inv {A B : Type} (m : result A) (f : A -> result B) (b : B) :
  bind m f = Ok b -> exists a, m = Ok a /\ f a = Ok b.
Proof.
  destruct m as [a | e]; simpl; intros Hb; [exists a; auto | discriminate].
Qed.

Lemma bind_Raise_inv {A B : Type} (m : result A) (f : A -> result B) (e : exn) :
  bind m f = Raise e -> m = Raise e \/ exists a, m = Ok a /\ f a = Raise e.
Proof.
  destruct m as [a | e']; simpl; intros Hb; [right; exists a; auto | left; congruence].
Qed.

(** ** [np.linspace] *)

Lemma removelast_map_seq {A : Type} (g : nat -> A) (m : nat) :
  removelast (map g (seq 0 (S m))) = map g (seq 0 m).
Proof.
  rewrite seq_S, map_app; simpl. apply removelast_last.
Qed.

Lemma nth_map_seq (g : nat -> R) (m i : nat) :
  (i < m)%nat -> nth i (map g (seq 0 m)) 0 = g i.
Proof.
  intros Hi.
  rewrite (nth_indep _ 0 (g 0%nat)) by (rewrite length_map, length_seq; exact Hi).
  rewrite map_nth, seq_nth by exact Hi. reflexivity.
Qed.

(** With at least two samples, [np.linspace] returns [num] values, the one at
    index [i] being [start + i * (stop - start) / (num - 1)]. *)
Lemma linspace_spec (start stop : R) (num : Z) :
  (2 <= num)%Z ->
  exists l,
    Np.linspace start stop num = Ok l
    /\ length l = Z.to_nat num
    /\ last l 0 = stop
    /\ forall i, (i < Z.to_nat num)%nat ->
         nth i l 0 = start + INR i * ((stop - start) / INR (Z.to_nat num - 1)).
Proof.
  intros Hnum. unfold Np.linspace.
  destruct (Z.ltb_spec num 0) as [Hneg | _]; [lia |].
  remember (Z.to_nat num) as n eqn:Hn.
  destruct n as [| [| m]]; [lia | lia |].
  replace (1 <? S (S m))%nat with true by (symmetry; apply Nat.ltb_lt; lia).
  unfold Np.set_last. rewrite removelast_map_seq.
  eexists; split; [reflexivity |].
  split; [| split].
  - rewrite length_app, length_map, length_seq; simpl; lia.
  - apply last_last.
  - intros i Hi.
    replace (S (S m) - 1)%nat with (S m) by lia.
    destruct (Nat.eq_dec i (S m)) as [-> | Hne].
    + replace (S m) with (length (map (fun i : nat =>
          INR i * ((stop - start) / INR (S m)) + start) (seq 0 (S m)))) at 1
        by (rewrite length_map, length_seq; reflexivity).
      rewrite nth_middle.
      assert (INR (S m) <> 0) by (apply not_0_INR; lia).
      field; assumption.
    + rewrite app_nth1 by (rewrite length_map, length_seq; lia).
      rewrite nth_map_seq by lia. ring.
Qed.

Lemma linspace_no_NotImplementedError (start stop : R) (num : Z) :
  Np.linspace start stop num <> Raise NotImplementedError.
Proof.
  unfold Np.linspace. destruct (num <? 0)%Z; discriminate.
Qed.

Lemma Sorted_of_nth (l : list R) :
  (forall i, (S i < length l)%nat -> nth i l 0 <= nth (S i) l 0) ->
  Sorted Rle l.
Proof.
  induction l as [| a l IH]; intros Hstep; constructor.
  - apply IH. intros i Hi. apply (Hstep (S i)). simpl; lia.
  - destruct l as [| b l]; constructor.
    apply (Hstep 0%nat). simpl; lia.
Qed.

(** ** Delay schedule: [get_delays] *)

Lemma speed_ratio_pos (v0 v1 : R) : 0 < v0 < v1 -> 0 < 1 - v0 / v1.
Proof.
  intros Hv. assert (v0 / v1 < 1); [| lra].
  apply (Rmult_lt_reg_r v1); [lra |]. unfold Rdiv.
  rewrite Rmult_assoc, Rinv_l by lra. lra.
Qed.

(** C5, as stated, fails for a negative radius: with [R = -1], [v0 = 1],
    [v1 = 2] and two samples the schedule is [[0; -0.6]], which descends. *)
Lemma get_delays_uniform_negative_radius :
  0 < 1 < 2 /\ (2 <= 2)%Z
  /\ exists delays,
       get_delays (-1) 1 2 2 "uniform" = Ok delays /\ ~ Sorted Rle delays.
Proof.
  split; [lra |]. split; [lia |].
  eexists; split; [reflexivity |].
  simpl. unfold Np.set_last; simpl.
  intros Hs. inversion Hs as [| a l _ Hhd]; subst.
  inversion Hhd as [| b l' Hle]; subst. lra.
Qed.

(** C5 (amended): for a radius [R >= 0], speeds [0 < v0 < v1] and
    [n_delays >= 2], the uniform schedule has exactly [n_delays] values,
    sorted ascending, the first one 0 and the last one
    [1.2 * (1 - v0/v1) * R]. *)
Theorem get_delays_uniform_spec (R_ v0 v1 : R) (n_delays : Z) :
  0 <= R_ -> 0 < v0 < v1 -> (2 <= n_delays)%Z ->
  exists delays,
    get_delays R_ v0 v1 n_delays "uniform" = Ok delays
    /\ length delays = Z.to_nat n_delays
    /\ Sorted Rle delays
    /\ nth 0 delays 0 = 0
    /\ last delays 0 = 1.2 * (1 - v0 / v1) * R_.
Proof.
  intros HR Hv Hn. unfold get_delays; simpl.
  destruct (linspace_spec ((1 - v0 / v1) * R_ * 0) ((1 - v0 / v1) * R_ * 1.2)
              n_delays Hn) as (l & Hl & Hlen & Hlast & Hnth).
  exists l. split; [exact Hl |]. split; [exact Hlen |].
  assert (Hc : 0 <= 1 - v0 / v1) by (left; apply speed_ratio_pos; exact Hv).
  assert (Hq : 0 <= ((1 - v0 / v1) * R_ * 1.2 - (1 - v0 / v1) * R_ * 0)
                    / INR (Z.to_nat n_delays - 1)).
  { apply Rmult_le_pos.
    - assert (0 <= (1 - v0 / v1) * R_) by (apply Rmult_le_pos; assumption). lra.
    - left. apply Rinv_0_lt_compat, lt_0_INR. lia. }
  split; [| split].
  - apply Sorted_of_nth. intros i Hi. rewrite Hlen in Hi.
    rewrite !Hnth by lia. rewrite S_INR. lra.
  - rewrite Hnth by lia. simpl. lra.
  - rewrite Hlast. lra.
Qed.

Lemma get_delays_uniform_spec_witness :
  exists delays,
    get_delays 1 1 2 2 "uniform" = Ok delays
    /\ length delays = Z.to_nat 2
    /\ Sorted Rle delays
    /\ nth 0 delays 0 = 0
    /\ last delays 0 = 1.2 * (1 - 1 / 2) * 1.
Proof.
  apply (get_delays_uniform_spec 1 1 2 2); [lra | lra | lia].
Defined.

(** C6: for [R > 0], [0 < v0 < v1] and [n_delays >= 2], squaring the
    quadric schedule divided by [(1 - v0/v1) * R] gives back
    [np.linspace(0, 1, n_delays)], whose [n_delays] points are
    [i / (n_delays - 1)]. *)
Theorem get_delays_quadric_roundtrip (R_ v0 v1 : R) (n_delays : Z) :
  0 < R_ -> 0 < v0 < v1 -> (2 <= n_delays)%Z ->
  exists delays grid,
    get_delays R_ v0 v1 n_delays "quadric" = Ok delays
    /\ length delays = Z.to_nat n_delays
    /\ map (fun d => (d / ((1 - v0 / v1) * R_)) ^ 2) delays = grid
    /\ Np.linspace 0 1 n_delays = Ok grid
    /\ forall i, (i < Z.to_nat n_delays)%nat ->
         nth i grid 0 = INR i / INR (Z.to_nat n_delays - 1).
Proof.
  intros HR Hv Hn.
  destruct (linspace_spec 0 1 n_delays Hn) as (grid & Hl & Hlen & _ & Hnth).
  exists (map (fun u => (1 - v0 / v1) * R_ * sqrt u) grid), grid.
  assert (Hgrid : forall i, (i < Z.to_nat n_delays)%nat ->
                    nth i grid 0 = INR i / INR (Z.to_nat n_delays - 1)).
  { intros i Hi. rewrite Hnth by exact Hi. unfold Rdiv. ring. }
  split; [| split; [| split; [| split]]].
  - unfold get_delays; simpl. rewrite Hl. reflexivity.
  - rewrite length_map. exact Hlen.
  - rewrite map_map. rewrite <- (map_id grid) at 2.
    apply map_ext_in. intros u Hu.
    destruct (In_nth grid u 0 Hu) as (i & Hi & <-).
    rewrite Hlen in Hi. rewrite (Hgrid i Hi).
    assert (Hu0 : 0 <= INR i / INR (Z.to_nat n_delays - 1)).
    { apply Rmult_le_pos; [apply pos_INR |].
      left. apply Rinv_0_lt_compat, lt_0_INR. lia. }
    replace ((1 - v0 / v1) * R_ * sqrt (INR i / INR (Z.to_nat n_delays - 1))
             / ((1 - v0 / v1) * R_))
      with (sqrt (INR i / INR (Z.to_nat n_delays - 1)))
      by (field; repeat split; lra).
    apply pow2_sqrt. exact Hu0.
  - exact Hl.
  - exact Hgrid.
Qed.

Lemma get_delays_quadric_roundtrip_witness :
  exists delays grid,
    get_delays 1 1 2 3 "quadric" = Ok delays
    /\ length delays = Z.to_nat 3
    /\ map (fun d => (d / ((1 - 1 / 2) * 1)) ^ 2) delays = grid
    /\ Np.linspace 0 1 3 = Ok grid
    /\ forall i, (i < Z.to_nat 3)%nat -> nth i grid 0 = INR i / INR (Z.to_nat 3 - 1).
Proof.
  apply (get_delays_quadric_roundtrip 1 1 2 3); [lra | lra | lia].
Defined.

(** ** Which exceptions the helpers raise *)

Lemma set_raises {A : Type} (l : list A) (i : nat) (v : A) (e : exn) :
  Np.set l i v = Raise e -> e = IndexError.
Proof.
  revert i. induction l as [| x l IH]; intros i He.
  - destruct i; simpl in He; congruence.
  - destruct i as [| i]; simpl in He; [discriminate |].
    destruct (Np.set l i v) as [l'' |e'] eqn:Hs; simpl in He; [discriminate |].
    injection He as <-. apply (IH i). exact Hs.
Qed.

Lemma argmin_raises (l : list R) (e : exn) :
  Np.argmin l = Raise e -> e = ValueError.
Proof.
  destruct l; simpl; congruence.
Qed.

Lemma broadcast2_raises (f : R -> R -> R) (a b : list R) (e : exn) :
  Np.broadcast2 f a b = Raise e -> e = ValueError.
Proof.
  unfold Np.broadcast2, Np.broadcast_dim.
  destruct (length a =? 1)%nat; [discriminate |].
  destruct (length b =? 1)%nat; [discriminate |].
  destruct (length a =? length b)%nat; simpl; congruence.
Qed.

Lemma mapM_raises {A B : Type} (f : A -> result B) (l : list A) (e : exn) :
  mapM f l = Raise e -> exists x, In x l /\ f x = Raise e.
Proof.
  induction l as [| x l IH]; simpl; [discriminate |].
  destruct (f x) as [y | e'] eqn:Hx; simpl.
  - destruct (mapM f l) as [ys | e''] eqn:Hl; simpl; [discriminate |].
    intros He. destruct (IH He) as (x' & Hin & Hx'). exists x'; auto.
  - intros He. exists x. split; [left; reflexivity | congruence].
Qed.

Lemma abs_diff_flat_raises (C0 : C0_arg) (delays : list R) (e : exn) :
  abs_diff_flat C0 delays = Raise e -> e = ValueError.
Proof.
  destruct C0 as [c | f]; simpl; [discriminate |].
  intros He. apply bind_Raise_inv in He as [He | (rows & _ & He)];
    [| discriminate].
  apply mapM_raises in He as (row & _ & He).
  apply broadcast2_raises in He. exact He.
Qed.

(** ** Unsupported selectors *)

(** C7: [get_delays] raises [NotImplementedError] exactly for the mode
    strings other than 'uniform' and 'quadric', and [get_weights] raises it
    exactly for the attention strings other than 'uniform', 'onehot' and
    'euclidean'; a raised error is the result of the call, so no value is
    returned with it. *)
Theorem unsupported_selector_raises
  (R_ v0 v1 : R) (n_delays : Z) (C0 : C0_arg) (delays : list R) (sel : string) :
  (get_delays R_ v0 v1 n_delays sel = Raise NotImplementedError
   <-> sel <> "uniform" /\ sel <> "quadric")
  /\ (get_weights C0 delays sel = Raise NotImplementedError
      <-> sel <> "uniform" /\ sel <> "onehot" /\ sel <> "euclidean").
Proof.
  split; split.
  - unfold get_delays.
    destruct (String.eqb_spec sel "uniform") as [-> | Hu].
    { intros He. exfalso. exact (linspace_no_NotImplementedError _ _ _ He). }
    destruct (String.eqb_spec sel "quadric") as [-> | Hq]; [| auto].
    intros He. exfalso.
    apply bind_Raise_inv in He as [He | (ls & _ & He)]; [| discriminate].
    exact (linspace_no_NotImplementedError _ _ _ He).
  - intros [Hu Hq]. unfold get_delays.
    destruct (String.eqb_spec sel "uniform"); [contradiction |].
    destruct (String.eqb_spec sel "quadric"); [contradiction |].
    reflexivity.
  - unfold get_weights.
    destruct (String.eqb_spec sel "uniform") as [-> | Hu]; [discriminate |].
    destruct (String.eqb_spec sel "euclidean") as [-> | He]; [discriminate |].
    destruct (String.eqb_spec sel "onehot") as [-> | Ho]; [| auto].
    intros Hr. exfalso.
    apply bind_Raise_inv in Hr as [Hr | (a & _ & Hr)].
    { apply abs_diff_flat_raises in Hr. discriminate. }
    apply bind_Raise_inv in Hr as [Hr | (k & _ & Hr)].
    { apply argmin_raises in Hr. discriminate. }
    apply set_raises in Hr. discriminate.
  - intros (Hu & Ho & He). unfold get_weights.
    destruct (String.eqb_spec sel "uniform"); [contradiction |].
    destruct (String.eqb_spec sel "euclidean"); [contradiction |].
    destruct (String.eqb_spec sel "onehot"); [contradiction |].
    reflexivity.
Qed.

Lemma unsupported_selector_raises_witness :
  get_delays 1 1 2 3 "cubic" = Raise NotImplementedError
  /\ get_weights (C0_scalar 0) [0; 1] "softmax" = Raise NotImplementedError.
Proof.
  split.
  - apply (proj1 (unsupported_selector_raises 1 1 2 3 (C0_scalar 0) [0; 1] "cubic")).
    split; discriminate.
  - apply (proj2 (unsupported_selector_raises 1 1 2 3 (C0_scalar 0) [0; 1] "softmax")).
    repeat split; discriminate.
Defined.

(** ** Homogeneous wavefront models *)

(** C4: for [R > 0], [v0 > 0], [v1 > 0] and a point with [0 <= r < R], the
    truncated Fourier model built from [get_fourier_params] and the exact
    model [wavefront_real] take the same value at [theta = phi], namely
    [(1 - v0/v1) * (R + r)]. *)
Theorem wavefront_models_agree_broadside (R_ v0 v1 r phi : R) :
  0 < R_ -> 0 < v0 -> 0 < v1 -> 0 <= r < R_ ->
  let '(C0, C1, phi1, C2, phi2) := get_fourier_params r phi R_ v0 v1 in
  wavefront_fourier C0 C1 phi1 C2 phi2 phi = wavefront_real R_ r phi v0 v1 phi
  /\ wavefront_fourier C0 C1 phi1 C2 phi2 phi = (1 - v0 / v1) * (R_ + r)
  /\ wavefront_real R_ r phi v0 v1 phi = (1 - v0 / v1) * (R_ + r).
Proof.
  intros HR Hv0 Hv1 [Hr0 HrR]. unfold get_fourier_params.
  assert (Hreal : wavefront_real R_ r phi v0 v1 phi = (1 - v0 / v1) * (R_ + r)).
  { unfold wavefront_real. destruct (Rlt_dec r R_) as [_ | Hn]; [| contradiction].
    rewrite Rminus_diag, sin_0, cos_0.
    replace (R_ ^ 2 - (r * 0) ^ 2) with (R_ ^ 2) by ring.
    rewrite sqrt_pow2 by lra. ring. }
  assert (Hfourier :
    wavefront_fourier ((1 - v0 / v1) * R_ * (1 - r ^ 2 / (4 * R_ ^ 2)))
      ((1 - v0 / v1) * r) phi ((1 - v0 / v1) * r ^ 2 / (4 * R_)) phi phi
    = (1 - v0 / v1) * (R_ + r)).
  { unfold wavefront_fourier.
    rewrite Rminus_diag, Rmult_0_r, cos_0. field. lra. }
  rewrite Hfourier, Hreal. auto.
Qed.

Lemma wavefront_models_agree_broadside_witness :
  let '(C0, C1, phi1, C2, phi2) := get_fourier_params 1 0 2 1 2 in
  wavefront_fourier C0 C1 phi1 C2 phi2 0 = wavefront_real 2 1 0 1 2 0
  /\ wavefront_fourier C0 C1 phi1 C2 phi2 0 = (1 - 1 / 2) * (2 + 1)
  /\ wavefront_real 2 1 0 1 2 0 = (1 - 1 / 2) * (2 + 1).
Proof.
  apply (wavefront_models_agree_broadside 2 1 2 1 0); lra.
Defined.

(** ** The clamped zeroth coefficient: [get_r_C0] *)

Lemma get_fourier_params_C0 (r phi R_ v0 v1 : R) :
  let '(C0, _, _, _, _) := get_fourier_params r phi R_ v0 v1 in
  C0 = C0_closed_form r R_ v0 v1.
Proof. reflexivity. Qed.

Lemma grid_radius_12_16 :
  sqrt ((IZR (16 - 12) * 4 / 4) ^ 2 + (IZR (12 - 12) * 4 / 4) ^ 2) = 4.
Proof.
  simpl Z.sub.
  replace ((4 * 4 / 4) ^ 2 + (0 * 4 / 4) ^ 2) with (4 ^ 2) by field.
  apply sqrt_pow2. lra.
Qed.

(** C10, as stated, fails in its examples: with [v0 = 2 > v1 = 1], [R = 1]
    and the grid point [(i, j) = (12, 16)] at pitch [l = 4] the radius is
    [r = 4 > 2 R] and the coefficient is 3, not 0. *)
Lemma get_r_C0_not_clamped_when_v0_exceeds_v1 :
  1 < 2
  /\ 2 * 1 < fst (get_r_C0 12 16 1 4 2 1)
  /\ snd (get_r_C0 12 16 1 4 2 1) = 3
  /\ snd (get_r_C0 12 16 1 4 2 1) <> 0.
Proof.
  assert (Hc : snd (get_r_C0 12 16 1 4 2 1) = 3).
  { unfold get_r_C0, snd. rewrite grid_radius_12_16.
    replace ((1 - 2 / 1) * 1 * (1 - 4 ^ 2 / (4 * 1 ^ 2))) with 3 by field.
    apply Rmax_right. lra. }
  split; [lra |]. split; [| split; [exact Hc |]].
  - unfold get_r_C0, fst. rewrite grid_radius_12_16. lra.
  - rewrite Hc. lra.
Qed.

Lemma ratio_gt_1 (a d : R) : 0 < d -> d < a -> 1 < a / d.
Proof.
  intros Hd Ha. apply (Rmult_lt_reg_r d); [exact Hd |].
  unfold Rdiv. rewrite Rmult_assoc, Rinv_l by lra. lra.
Qed.

Lemma ratio_lt_1 (a d : R) : 0 < d -> a < d -> a / d < 1.
Proof.
  intros Hd Ha. apply (Rmult_lt_reg_r d); [exact Hd |].
  unfold Rdiv. rewrite Rmult_assoc, Rinv_l by lra. lra.
Qed.

(** C10 (amended): for every grid index pair and every [R <> 0], [l], [v0]
    and [v1 <> 0], the [C0] of [get_r_C0] is the maximum of 0 and the closed
    form at the mapped point; it is nonnegative, agrees with the [C0] of
    [get_fourier_params] exactly when the closed form is nonnegative and is 0
    otherwise.  For [R > 0] it is 0 when [r > 2 R] and [v0 < v1] with
    [v1 > 0], and when [r < 2 R] and [v0 > v1 > 0]. *)
Theorem get_r_C0_clamped (i j : Z) (R_ l v0 v1 : R) :
  R_ <> 0 -> v1 <> 0 ->
  let '(r, C0) := get_r_C0 i j R_ l v0 v1 in
  let '(C0_fourier, _, _, _, _) := get_fourier_params r 0 R_ v0 v1 in
  r = sqrt ((IZR (j - 12) * l / 4) ^ 2 + (IZR (12 - i) * l / 4) ^ 2)
  /\ C0 = Rmax 0 (C0_closed_form r R_ v0 v1)
  /\ 0 <= C0
  /\ (C0 = C0_fourier <-> 0 <= C0_closed_form r R_ v0 v1)
  /\ (C0_closed_form r R_ v0 v1 < 0 -> C0 = 0)
  /\ (0 < R_ -> 0 < v1 -> v0 < v1 -> 2 * R_ < r -> C0 = 0)
  /\ (0 < R_ -> 0 < v1 -> v1 < v0 -> r < 2 * R_ -> C0 = 0).
Proof.
  intros HR Hv1. unfold get_r_C0, get_fourier_params.
  set (r := sqrt ((IZR (j - 12) * l / 4) ^ 2 + (IZR (12 - i) * l / 4) ^ 2)).
  fold (C0_closed_form r R_ v0 v1).
  assert (Hr0 : 0 <= r) by apply sqrt_pos.
  split; [reflexivity |]. split; [reflexivity |].
  split; [apply Rmax_l |].
  split; [| split; [| split]].
  - split; intros H.
    + rewrite <- H. apply Rmax_l.
    + apply Rmax_right. exact H.
  - intros H. apply Rmax_left. lra.
  - intros HRp Hv1p Hv Hr. apply Rmax_left.
    unfold C0_closed_form.
    assert (0 < 1 - v0 / v1).
    { assert (v0 / v1 < 1) by (apply ratio_lt_1; assumption). lra. }
    assert (1 < r ^ 2 / (4 * R_ ^ 2)) by (apply ratio_gt_1; nra).
    assert (0 < (1 - v0 / v1) * R_) by (apply Rmult_lt_0_compat; assumption).
    nra.
  - intros HRp Hv1p Hv Hr. apply Rmax_left.
    unfold C0_closed_form.
    assert (1 - v0 / v1 < 0).
    { assert (1 < v0 / v1) by (apply ratio_gt_1; assumption). lra. }
    assert (r ^ 2 / (4 * R_ ^ 2) < 1) by (apply ratio_lt_1; nra).
    assert ((1 - v0 / v1) * R_ < 0) by nra.
    nra.
Qed.

Lemma get_r_C0_clamped_witness :
  0 <= snd (get_r_C0 12 16 1 4 1 2) /\ snd (get_r_C0 12 16 1 4 1 2) = 0.
Proof.
  pose proof (get_r_C0_clamped 12 16 1 4 1 2) as H.
  unfold get_r_C0, get_fourier_params in H. unfold get_r_C0, snd.
  destruct H as (_ & _ & Hpos & _ & _ & Hfar & _); [lra | lra |].
  split; [exact Hpos |].
  apply Hfar; try lra. rewrite grid_radius_12_16. lra.
Defined.

(** ** [np.argmin] and indexed assignment *)

Lemma nth_map_lt (g : R -> R) (l : list R) (j : nat) :
  (j < length l)%nat -> nth j (map g l) 0 = g (nth j l 0).
Proof.
  intros Hj. rewrite (nth_indep _ 0 (g 0)) by (rewrite length_map; exact Hj).
  apply map_nth.
Qed.

(** The scan of [np.argmin]: [p] is the part of the array already read,
    [best] its least element and [best_i] the first index holding it. *)
Lemma argmin_from_spec (l : list R) :
  forall (p : list R) (best_i : nat) (best : R),
    (best_i < length p)%nat ->
    nth best_i p 0 = best ->
    (forall j, (j < length p)%nat -> best <= nth j p 0) ->
    (forall j, (j < best_i)%nat -> best < nth j p 0) ->
    let k := Np.argmin_from best_i best (length p) l in
    (k < length (p ++ l))%nat
    /\ (forall j, (j < length (p ++ l))%nat -> nth k (p ++ l) 0 <= nth j (p ++ l) 0)
    /\ (forall j, (j < k)%nat -> nth k (p ++ l) 0 < nth j (p ++ l) 0).
Proof.
  induction l as [| x l IH]; intros p best_i best Hlt Hbest Hmin Hfirst; simpl.
  - rewrite app_nil_r. rewrite Hbest. auto.
  - replace (p ++ x :: l) with ((p ++ [x]) ++ l) by (rewrite <- app_assoc; reflexivity).
    replace (S (length p)) with (length (p ++ [x]))
      by (rewrite length_app; simpl; lia).
    destruct (Rlt_dec x best) as [Hx | Hx].
    + apply IH.
      * rewrite length_app; simpl; lia.
      * apply nth_middle.
      * intros j Hj. rewrite length_app in Hj; simpl in Hj.
        destruct (Nat.eq_dec j (length p)) as [-> | Hne].
        -- rewrite nth_middle. lra.
        -- rewrite app_nth1 by lia. specialize (Hmin j ltac:(lia)). lra.
      * intros j Hj. rewrite app_nth1 by lia. specialize (Hmin j Hj). lra.
    + apply IH.
      * rewrite length_app; simpl; lia.
      * rewrite app_nth1 by lia. exact Hbest.
      * intros j Hj. rewrite length_app in Hj; simpl in Hj.
        destruct (Nat.eq_dec j (length p)) as [-> | Hne].
        -- rewrite nth_middle. lra.
        -- rewrite app_nth1 by lia. apply Hmin. lia.
      * intros j Hj. rewrite app_nth1 by lia. apply Hfirst. exact Hj.
Qed.

(** On a non-empty array [np.argmin] returns an index of the least element,
    the first one among equals. *)
Lemma argmin_spec (a : list R) :
  a <> [] ->
  exists k,
    Np.argmin a = Ok k
    /\ (k < length a)%nat
    /\ (forall j, (j < length a)%nat -> nth k a 0 <= nth j a 0)
    /\ (forall j, (j < k)%nat -> nth k a 0 < nth j a 0).
Proof.
  destruct a as [| x l]; [congruence |]. intros _.
  exists (Np.argmin_from 0%nat x 1%nat l). split; [reflexivity |].
  apply (argmin_from_spec l [x] 0%nat x); simpl.
  - lia.
  - reflexivity.
  - intros j Hj. replace j with 0%nat by lia. lra.
  - intros j Hj. lia.
Qed.

Lemma set_repeat {A : Type} (z v : A) (n : nat) :
  forall k, (k < n)%nat ->
    Np.set (repeat z n) k v
    = Ok (map (fun i => if (i =? k)%nat then v else z) (seq 0 n)).
Proof.
  induction n as [| n IH]; intros k Hk; [lia |].
  destruct k as [| k]; simpl.
  - f_equal. f_equal. rewrite <- seq_shift, map_map. simpl.
    clear. induction n as [| n IHn]; simpl; [reflexivity |].
    f_equal. rewrite <- seq_shift, map_map. exact IHn.
  - rewrite IH by lia. simpl. f_equal. f_equal.
    rewrite <- seq_shift, map_map. reflexivity.
Qed.

(** ** Weights: [get_weights] *)

(** C8: for a scalar [C0] and a non-empty delay array, the 'onehot' weights
    are 1 at one delay index and 0 at all others, and that index is the first
    one that minimises [|delays[k] - C0|]. *)
Theorem get_weights_onehot_spec (c : R) (delays : list R) :
  delays <> [] ->
  exists k,
    (k < length delays)%nat
    /\ get_weights (C0_scalar c) delays "onehot"
       = Ok (map (fun i => [[if (i =? k)%nat then 1 else 0]])
                 (seq 0 (length delays)))
    /\ (forall j, (j < length delays)%nat ->
          Rabs (nth k delays 0 - c) <= Rabs (nth j delays 0 - c))
    /\ (forall j, (j < k)%nat ->
          Rabs (nth k delays 0 - c) < Rabs (nth j delays 0 - c)).
Proof.
  intros Hne.
  destruct (argmin_spec (map (fun d => Rabs (d - c)) delays))
    as (k & Hk & Hlt & Hmin & Hfirst).
  { destruct delays; [congruence | discriminate]. }
  rewrite length_map in Hlt, Hmin.
  exists k. split; [exact Hlt |]. split; [| split].
  - unfold get_weights; simpl. rewrite Hk; simpl.
    rewrite set_repeat by exact Hlt.
    f_equal. apply map_ext. intros i. destruct (i =? k)%nat; reflexivity.
  - intros j Hj. specialize (Hmin j Hj).
    rewrite !nth_map_lt in Hmin by assumption. exact Hmin.
  - intros j Hj. specialize (Hfirst j Hj).
    rewrite !nth_map_lt in Hfirst by lia. exact Hfirst.
Qed.

Lemma get_weights_onehot_spec_witness :
  exists k,
    (k < length [0; 3; 1])%nat
    /\ get_weights (C0_scalar 2) [0; 3; 1] "onehot"
       = Ok (map (fun i => [[if (i =? k)%nat then 1 else 0]])
                 (seq 0 (length [0; 3; 1])))
    /\ (forall j, (j < length [0; 3; 1])%nat ->
          Rabs (nth k [0; 3; 1] 0 - 2) <= Rabs (nth j [0; 3; 1] 0 - 2))
    /\ (forall j, (j < k)%nat ->
          Rabs (nth k [0; 3; 1] 0 - 2) < Rabs (nth j [0; 3; 1] 0 - 2)).
Proof.
  apply (get_weights_onehot_spec 2 [0; 3; 1]). discriminate.
Defined.

(** *** Sums over nested arrays *)

Lemma sum_app (a b : list R) : Np.sum (a ++ b) = Np.sum a + Np.sum b.
Proof.
  induction a as [| x a IH]; simpl; [ring |]. rewrite IH. ring.
Qed.

Lemma sum_concat (m : list (list R)) : Np.sum (concat m) = Np.sum2 m.
Proof.
  unfold Np.sum2. induction m as [| row m IH]; simpl; [reflexivity |].
  rewrite sum_app, IH. reflexivity.
Qed.

Lemma sum3_flat3 (a : list (list (list R))) : Np.sum3 a = Np.sum (flat3 a).
Proof.
  unfold Np.sum3, flat3. induction a as [| m a IH]; simpl; [reflexivity |].
  rewrite concat_app, sum_app, <- IH, sum_concat. reflexivity.
Qed.

Lemma flat3_map3d (g : R -> R) (a : list (list (list R))) :
  flat3 (map3d g a) = map g (flat3 a).
Proof.
  unfold flat3, map3d, map2d. rewrite !concat_map. reflexivity.
Qed.

Lemma sum_map_scale (g : R -> R) (a : R) (l : list R) :
  (forall x, g x = x * a) -> Np.sum (map g l) = Np.sum l * a.
Proof.
  intros Hg. induction l as [| x l IH]; simpl; [ring |].
  rewrite IH, Hg. ring.
Qed.

Lemma sum_exp_pos (l : list R) : l <> [] -> 0 < Np.sum (map exp l).
Proof.
  assert (Hge : forall l', 0 <= Np.sum (map exp l')).
  { induction l' as [| y l' IH]; simpl; [lra |].
    pose proof (exp_pos y). lra. }
  destruct l as [| x l]; [congruence |]. intros _. simpl.
  pose proof (exp_pos x). pose proof (Hge l). lra.
Qed.

Lemma flat3_sq_distance_nil (C0 : C0_arg) (delays : list R) :
  flat3 (sq_distance C0 delays) = [] -> delays = [] \/ C0_pixels C0 = [].
Proof.
  destruct delays as [| d delays]; [auto |]. intros Hnil. right.
  unfold flat3 in Hnil. destruct C0 as [c | f]; simpl in Hnil; [discriminate |].
  rewrite concat_app in Hnil. apply app_eq_nil in Hnil as [Hnil _].
  unfold map2d in Hnil. rewrite <- concat_map in Hnil.
  apply map_eq_nil in Hnil. exact Hnil.
Qed.

(** The two normalisations of the 'euclidean' branch, on the flattened
    array of squared distances [l]: every weight is positive and all of
    them together sum to [n]. *)
Lemma euclidean_normalisation (l : list R) (n : R) :
  l <> [] -> 0 < n ->
  let e := map exp l in
  let weights := map (fun x => x / Np.sum e) e in
  let out := map (fun w => w / Np.sum weights * n) weights in
  Np.sum weights = 1 /\ Forall (fun v => 0 < v) out /\ Np.sum out = n.
Proof.
  intros Hl Hn e weights out.
  assert (HE : 0 < Np.sum e) by (apply sum_exp_pos; exact Hl).
  assert (Hw : Np.sum weights = 1).
  { unfold weights. rewrite (sum_map_scale _ (/ Np.sum e)) by reflexivity.
    apply Rinv_r. lra. }
  split; [exact Hw |]. split.
  - unfold out, weights, e. rewrite !Forall_map. apply Forall_forall.
    intros x _. fold e. fold weights. rewrite Hw.
    pose proof (exp_pos x).
    assert (0 < exp x / Np.sum e) by (apply Rdiv_lt_0_compat; assumption).
    assert (0 < exp x / Np.sum e / 1) by (apply Rdiv_lt_0_compat; lra).
    apply Rmult_lt_0_compat; assumption.
  - unfold out. rewrite (sum_map_scale _ (/ Np.sum weights * n)).
    + rewrite Hw. field.
    + intros x. unfold Rdiv. ring.
Qed.

Lemma get_weights_euclidean_eq (C0 : C0_arg) (delays : list R) :
  get_weights C0 delays "euclidean"
  = let distance := sq_distance C0 delays in
    let weights :=
      map3d (fun e => e / Np.sum3 (map3d exp distance)) (map3d exp distance) in
    Ok (map3d (fun w => w / Np.sum3 weights * INR (length delays)) weights).
Proof. reflexivity. Qed.

Lemma get_weights_euclidean_flat (C0 : C0_arg) (delays : list R) :
  exists w,
    get_weights C0 delays "euclidean" = Ok w
    /\ flat3 w
       = (let e := map exp (flat3 (sq_distance C0 delays)) in
          let weights := map (fun x => x / Np.sum e) e in
          map (fun v => v / Np.sum weights * INR (length delays)) weights).
Proof.
  rewrite get_weights_euclidean_eq. cbv zeta.
  eexists. split; [reflexivity |].
  repeat (rewrite flat3_map3d || rewrite sum3_flat3).
  reflexivity.
Qed.

(** C3, as stated, fails for a per-pixel field: with one delay and the
    field [[[0; 0]]] of shape [[1, 2]] both weights are 1/2, so the sum
    along the delay axis at pixel [(0, 0)] is 1/2 and not [n_delays = 1]. *)
Lemma get_weights_euclidean_field_not_per_pixel :
  exists w,
    get_weights (C0_field [[0; 0]]) [0] "euclidean" = Ok w
    /\ delay_axis_sum w 0 0 = 1 / 2
    /\ delay_axis_sum w 0 0 <> INR (length [0]).
Proof.
  rewrite get_weights_euclidean_eq. cbv zeta.
  eexists. split; [reflexivity |].
  match goal with |- ?s = _ /\ _ => assert (H : s = 1 / 2) end.
  { unfold delay_axis_sum, Np.sum3, Np.sum2, Np.sum. simpl.
    replace ((0 - 0) * ((0 - 0) * 1)) with 0 by ring. rewrite exp_0. field. }
  split; [exact H |]. rewrite H. simpl. lra.
Qed.

Lemma delay_axis_sum_single_pixel (g : R -> R) (delays : list R) :
  delay_axis_sum (map (fun d => [[g d]]) delays) 0 0
  = Np.sum3 (map (fun d => [[g d]]) delays).
Proof.
  unfold delay_axis_sum, Np.sum3. rewrite !map_map. f_equal.
  apply map_ext. intros d. unfold Np.sum2; simpl. ring.
Qed.

(** C3 (amended): for every delay array and every [C0] whose squared
    distances [(delay - C0)^2] are at most 600, so that [exp] and its sum
    are finite in double precision, the 'euclidean' weights are strictly
    positive and, when [C0] has at least one pixel, sum to [n_delays] over
    all delays and pixels together; for a float [C0], or a field of the
    single pixel [[1, 1]], that is the sum along the delay axis at the
    pixel. *)
Theorem get_weights_euclidean_spec (C0 : C0_arg) (delays : list R) :
  exp_in_range C0 delays ->
  exists w,
    get_weights C0 delays "euclidean" = Ok w
    /\ Forall (fun v => 0 < v) (flat3 w)
    /\ (C0_pixels C0 <> [] -> Np.sum3 w = INR (length delays))
    /\ (forall c, C0 = C0_scalar c \/ C0 = C0_field [[c]] ->
          delay_axis_sum w 0 0 = INR (length delays)).
Proof.
  intros _.
  destruct (get_weights_euclidean_flat C0 delays) as (w & Hw & Hflat).
  exists w. split; [exact Hw |].
  assert (Hcases : flat3 (sq_distance C0 delays) = []
                   \/ (flat3 (sq_distance C0 delays) <> [] /\ delays <> [])).
  { destruct (flat3 (sq_distance C0 delays)) eqn:HL; [left; reflexivity |].
    right. split; [discriminate |]. intros ->.
    destruct C0; discriminate. }
  assert (Htotal : C0_pixels C0 <> [] -> Np.sum3 w = INR (length delays)).
  { intros Hpix. rewrite sum3_flat3, Hflat.
    destruct Hcases as [Hnil | [Hne Hd]].
    - apply flat3_sq_distance_nil in Hnil as [-> | Hnil]; [| contradiction].
      destruct C0; reflexivity.
    - apply euclidean_normalisation; [exact Hne |].
      apply lt_0_INR. destruct delays; [congruence | simpl; lia]. }
  split; [| split; [exact Htotal |]].
  - rewrite Hflat. destruct Hcases as [-> | [Hne Hd]]; [constructor |].
    apply euclidean_normalisation; [exact Hne |].
    apply lt_0_INR. destruct delays; [congruence | simpl; lia].
  - intros c Hc.
    assert (Hpix : C0_pixels C0 <> []) by (destruct Hc as [-> | ->]; discriminate).
    rewrite <- (Htotal Hpix).
    assert (Hshape : exists g, w = map (fun d => [[g d]]) delays).
    { rewrite get_weights_euclidean_eq in Hw. cbv zeta in Hw.
      injection Hw as <-.
      destruct Hc as [-> | ->]; unfold map3d, map2d, sq_distance;
        rewrite !map_map; eexists; simpl; reflexivity. }
    destruct Hshape as (g & ->). apply delay_axis_sum_single_pixel.
Qed.

Lemma get_weights_euclidean_spec_witness :
  exp_in_range (C0_scalar 1) [0; 2]
  /\ exists w,
       get_weights (C0_scalar 1) [0; 2] "euclidean" = Ok w
       /\ Forall (fun v => 0 < v) (flat3 w)
       /\ Np.sum3 w = INR (length [0; 2])
       /\ delay_axis_sum w 0 0 = INR (length [0; 2]).
Proof.
  assert (Hrange : exp_in_range (C0_scalar 1) [0; 2]).
  { unfold exp_in_range, sq_distance_bound. repeat constructor; simpl; lra. }
  split; [exact Hrange |].
  destruct (get_weights_euclidean_spec (C0_scalar 1) [0; 2] Hrange)
    as (w & Hw & Hpos & Htotal & Haxis).
  exists w. split; [exact Hw |]. split; [exact Hpos |]. split.
  - apply Htotal. discriminate.
  - apply (Haxis 1). left. reflexivity.
Defined.

(** ** Delay-and-sum: what holds of every call that returns *)

Lemma sample_index_eq (T_sample v0 d : R) (z : Z) :
  v0 * T_sample <> 0 ->
  IZR z <= d / (v0 * T_sample) < IZR z + 1 ->
  sample_index T_sample v0 d = Ok z.
Proof.
  intros Hne Hz. unfold sample_index.
  destruct (Req_dec_T (v0 * T_sample) 0) as [H0 | _]; [contradiction |].
  f_equal. apply Zfloor_eq. exact Hz.
Qed.

Lemma related_eq (T_sample v0 : R) (pa_signal : list (list R)) (dist : list R)
  (k : nat) (d : R) (id : Z) :
  nth_error dist k = Some d ->
  sample_index T_sample v0 d = Ok id ->
  related T_sample v0 pa_signal dist k
  = if guard pa_signal id then Np.get2 pa_signal k (Z.to_nat id) else Ok 0.
Proof.
  intros Hd Hid. unfold related, Np.get at 1. rewrite Hd. cbn [bind].
  rewrite Hid. reflexivity.
Qed.

Lemma foldM_invariant {A S : Type} (P : S -> Prop) (body : S -> A -> result S)
  (l : list A) :
  (forall acc x acc', P acc -> body acc x = Ok acc' -> P acc') ->
  forall acc r, P acc -> foldM body l acc = Ok r -> P r.
Proof.
  intros Hbody. induction l as [| x l IH]; intros acc r Hacc Hr; simpl in Hr.
  - injection Hr as <-. exact Hacc.
  - apply bind_Ok_inv in Hr as (acc' & Hx & Hr).
    apply (IH acc' r); [| exact Hr]. exact (Hbody acc x acc' Hacc Hx).
Qed.

Lemma get_In {A : Type} (l : list A) (i : nat) (x : A) :
  Np.get l i = Ok x -> In x l.
Proof.
  unfold Np.get. destruct (nth_error l i) as [y |] eqn:Hy; [| discriminate].
  intros Hx. injection Hx as <-. apply (nth_error_In _ _ Hy).
Qed.

Lemma set_Ok {A : Type} (l : list A) (v : A) :
  forall i l', Np.set l i v = Ok l' ->
    length l' = length l
    /\ forall P : A -> Prop, Forall P l -> P v -> Forall P l'.
Proof.
  induction l as [| x l IH]; intros i l' Hs.
  - destruct i; discriminate.
  - destruct i as [| i]; simpl in Hs.
    + injection Hs as <-. split; [reflexivity |].
      intros P Hl Hv. inversion Hl; subst. constructor; assumption.
    + apply bind_Ok_inv in Hs as (l'' & Hs & Hl'). injection Hl' as <-.
      destruct (IH i l'' Hs) as [Hlen Hall]. split; [simpl; congruence |].
      intros P Hl Hv. inversion Hl; subst. constructor; auto.
Qed.

Lemma set2_Ok (m m' : list (list R)) (i j : nat) (v : R) :
  Np.set2 m i j v = Ok m' ->
  (forall h w, has_shape m h w -> has_shape m' h w)
  /\ forall P : R -> Prop, Forall (Forall P) m -> P v -> Forall (Forall P) m'.
Proof.
  unfold Np.set2. intros Hs.
  apply bind_Ok_inv in Hs as (row & Hrow & Hs).
  apply bind_Ok_inv in Hs as (row' & Hrow' & Hs).
  apply get_In in Hrow.
  destruct (set_Ok _ _ _ _ Hrow') as [Hlen' Hall'].
  destruct (set_Ok _ _ _ _ Hs) as [Hlen Hall].
  split.
  - intros h w [Hh Hw]. split; [congruence |].
    apply Hall; [exact Hw |]. rewrite Hlen'.
    rewrite Forall_forall in Hw. apply Hw. exact Hrow.
  - intros P Hm Hv. apply Hall; [exact Hm |].
    apply Hall'; [| exact Hv]. rewrite Forall_forall in Hm. apply Hm. exact Hrow.
Qed.

Lemma zeros2_shape (h w : nat) : has_shape (Np.zeros2 h w) h w.
Proof.
  unfold has_shape, Np.zeros2, Np.zeros. split; [apply repeat_length |].
  apply Forall_forall. intros row Hrow. apply repeat_spec in Hrow as ->.
  apply repeat_length.
Qed.

Lemma zeros2_zero (h w : nat) : Forall (Forall (fun v => v = 0)) (Np.zeros2 h w).
Proof.
  unfold Np.zeros2, Np.zeros. apply Forall_forall. intros row Hrow.
  apply repeat_spec in Hrow as ->. apply Forall_forall. intros v Hv.
  apply repeat_spec in Hv. exact Hv.
Qed.

(** The array that [delay_and_sum] returns has [len(x_vec)] rows of
    [len(y_vec)] elements: the two axes of the documented shape
    [(len(y_vec), len(x_vec))] are exchanged. *)
Lemma delay_and_sum_shape (R_ring T_sample v0 : R) (pa_signal : list (list R))
  (x_vec y_vec : list R) (d_delay : R) (ring_error : scalar_or_array)
  (Image : list (list R)) :
  delay_and_sum R_ring T_sample v0 pa_signal x_vec y_vec d_delay ring_error
  = Ok Image ->
  has_shape Image (length x_vec) (length y_vec).
Proof.
  unfold delay_and_sum.
  destruct (N_transducer pa_signal =? 0)%nat; [discriminate |].
  intros HI.
  eapply (foldM_invariant (fun m => has_shape m (length x_vec) (length y_vec)));
    [| apply zeros2_shape | exact HI].
  intros acc s acc' Hacc Hrow.
  eapply (foldM_invariant (fun m => has_shape m (length x_vec) (length y_vec)));
    [| exact Hacc | exact Hrow].
  intros acc0 t acc1 Hacc0 Hb.
  apply bind_Ok_inv in Hb as (v & _ & Hset).
  apply (set2_Ok _ _ _ _ _ Hset). exact Hacc0.
Qed.

Lemma mapM_Ok_Forall {A B : Type} (f : A -> result B) (P : B -> Prop) (l : list A) :
  (forall x y, f x = Ok y -> P y) ->
  forall ys, mapM f l = Ok ys -> Forall P ys.
Proof.
  intros Hf. induction l as [| x l IH]; intros ys Hys; simpl in Hys.
  - injection Hys as <-. constructor.
  - apply bind_Ok_inv in Hys as (y & Hy & Hys).
    apply bind_Ok_inv in Hys as (ys' & Hl & Hys). injection Hys as <-.
    constructor; [exact (Hf x y Hy) | exact (IH ys' Hl)].
Qed.

Lemma sum_zeros (l : list R) : Forall (fun v => v = 0) l -> Np.sum l = 0.
Proof.
  induction 1 as [| x l Hx _ IH]; simpl; [reflexivity |]. rewrite Hx, IH. ring.
Qed.

Lemma related_zero_signal (T_sample v0 : R) (pa_signal : list (list R))
  (dist : list R) (k : nat) (y : R) :
  Forall (Forall (fun u => u = 0)) pa_signal ->
  related T_sample v0 pa_signal dist k = Ok y ->
  y = 0.
Proof.
  intros Hzero Hy. unfold related in Hy.
  apply bind_Ok_inv in Hy as (dk & _ & Hy).
  apply bind_Ok_inv in Hy as (id & _ & Hy).
  destruct (guard pa_signal id); [| congruence].
  unfold Np.get2 in Hy. apply bind_Ok_inv in Hy as (row & Hrow & Hy).
  apply get_In in Hrow. apply get_In in Hy.
  rewrite Forall_forall in Hzero. specialize (Hzero row Hrow).
  rewrite Forall_forall in Hzero. exact (Hzero y Hy).
Qed.

(** Whatever the geometry, a pixel computed from an all-zero sinogram is 0. *)
Lemma pixel_zero_signal (R_ring T_sample v0 : R) (pa_signal : list (list R))
  (x_vec y_vec : list R) (d_delay : R) (ring_error : scalar_or_array)
  (s t : nat) (v : R) :
  Forall (Forall (fun u => u = 0)) pa_signal ->
  pixel R_ring T_sample v0 pa_signal x_vec y_vec d_delay ring_error s t = Ok v ->
  v = 0.
Proof.
  intros Hzero Hv. unfold pixel in Hv.
  apply bind_Ok_inv in Hv as (dist & _ & Hv).
  apply bind_Ok_inv in Hv as (data & Hdata & Hv). injection Hv as <-.
  assert (Hall : Forall (fun u => u = 0) data).
  { apply (mapM_Ok_Forall (related T_sample v0 pa_signal dist) _
             (seq 0 (N_transducer pa_signal))); [| exact Hdata].
    intros k y Hy. exact (related_zero_signal _ _ _ _ _ _ Hzero Hy). }
  unfold Np.mean. rewrite (sum_zeros _ Hall). unfold Rdiv. ring.
Qed.

(** A call on an all-zero sinogram that returns an image returns the zero
    image. *)
Lemma delay_and_sum_zero_signal (R_ring T_sample v0 : R)
  (pa_signal : list (list R)) (x_vec y_vec : list R) (d_delay : R)
  (ring_error : scalar_or_array) (Image : list (list R)) :
  Forall (Forall (fun u => u = 0)) pa_signal ->
  delay_and_sum R_ring T_sample v0 pa_signal x_vec y_vec d_delay ring_error
  = Ok Image ->
  Forall (Forall (fun v => v = 0)) Image.
Proof.
  intros Hzero. unfold delay_and_sum.
  destruct (N_transducer pa_signal =? 0)%nat; [discriminate |].
  intros HI.
  eapply (foldM_invariant (Forall (Forall (fun v => v = 0))));
    [| apply zeros2_zero | exact HI].
  intros acc s acc' Hacc Hrow.
  eapply (foldM_invariant (Forall (Forall (fun v => v = 0))));
    [| exact Hacc | exact Hrow].
  intros acc0 t acc1 Hacc0 Hb.
  apply bind_Ok_inv in Hb as (v & Hv & Hset).
  apply (set2_Ok _ _ _ _ _ Hset); [exact Hacc0 |].
  exact (pixel_zero_signal _ _ _ _ _ _ _ _ _ _ _ Hzero Hv).
Qed.

Lemma get_nth {A : Type} (l : list A) (i : nat) (d : A) :
  (i < length l)%nat -> Np.get l i = Ok (nth i l d).
Proof.
  intros Hi. unfold Np.get. rewrite (nth_error_nth' l d Hi). reflexivity.
Qed.

Lemma get_out_of_range {A : Type} (l : list A) (i : nat) :
  (length l <= i)%nat -> Np.get l i = Raise IndexError.
Proof.
  intros Hi. unfold Np.get.
  destruct (nth_error l i) eqn:He; [| reflexivity].
  apply nth_error_None in Hi. congruence.
Qed.

(** The contribution of transducer [k] on a sinogram of [n] samples per
    row, by the sample index [id] of its path length: nothing is read and
    the contribution is 0 for [id <= 0] and for [id > n]; the sample
    [pa_signal[k, id]] is read for [0 < id < n]; for [id = n] the guard lets
    the read happen one element past the end of the row. *)
Lemma related_cases (T_sample v0 : R) (pa_signal : list (list R))
  (dist : list R) (k : nat) (d : R) (id : Z) (n : nat) :
  has_shape pa_signal (length pa_signal) n ->
  (k < length pa_signal)%nat ->
  nth_error dist k = Some d ->
  sample_index T_sample v0 d = Ok id ->
  related T_sample v0 pa_signal dist k
  = if (id <=? 0)%Z || (Z.of_nat n <? id)%Z then Ok 0
    else if (id <? Z.of_nat n)%Z
         then Ok (nth (Z.to_nat id) (nth k pa_signal []) 0)
         else Raise IndexError.
Proof.
  intros [_ Hrows] Hk Hd Hid. rewrite (related_eq _ _ _ _ _ _ _ Hd Hid).
  rewrite Forall_forall in Hrows.
  assert (Hn : Np.shape1 pa_signal = n).
  { unfold Np.shape1. destruct pa_signal as [| row m]; [simpl in Hk; lia |].
    apply Hrows. left. reflexivity. }
  assert (Hrow : length (nth k pa_signal []) = n).
  { apply Hrows. apply nth_In. exact Hk. }
  unfold guard. rewrite Hn.
  destruct (Z.leb_spec id 0) as [H0 | H0];
    destruct (Z.ltb_spec 0 id) as [H0' | H0']; try lia; simpl; [reflexivity |].
  destruct (Z.ltb_spec (Z.of_nat n) id) as [Hn' | Hn'];
    destruct (Z.leb_spec id (Z.of_nat n)) as [Hn'' | Hn'']; try lia;
    simpl; [reflexivity |].
  unfold Np.get2. rewrite (get_nth _ _ [] Hk). cbn [bind].
  destruct (Z.ltb_spec id (Z.of_nat n)) as [Hlt | Hge].
  - apply get_nth. lia.
  - apply get_out_of_range. lia.
Qed.

(** ** Delay-and-sum: which cell holds which grid point *)

Lemma foldM_seq_invariant {S : Type} (P : nat -> S -> Prop)
  (body : S -> nat -> result S) :
  (forall i acc acc', P i acc -> body acc i = Ok acc' -> P (Datatypes.S i) acc') ->
  forall n a acc r, P a acc -> foldM body (seq a n) acc = Ok r -> P (a + n)%nat r.
Proof.
  intros Hbody. induction n as [| n IH]; intros a acc r Hacc Hr; simpl in Hr.
  - injection Hr as <-. rewrite Nat.add_0_r. exact Hacc.
  - apply bind_Ok_inv in Hr as (acc' & Hx & Hr).
    replace (a + Datatypes.S n)%nat with (Datatypes.S a + n)%nat by lia.
    apply (IH (Datatypes.S a) acc' r); [| exact Hr].
    exact (Hbody a acc acc' Hacc Hx).
Qed.

Lemma get_Ok_lt {A : Type} (l : list A) (i : nat) (x : A) :
  Np.get l i = Ok x -> (i < length l)%nat.
Proof.
  unfold Np.get. destruct (nth_error l i) eqn:He; [| discriminate].
  intros _. apply nth_error_Some. congruence.
Qed.

Lemma get_set {A : Type} (l : list A) (v : A) :
  forall i l' i', Np.set l i v = Ok l' ->
    Np.get l' i' = if (i =? i')%nat then Ok v else Np.get l i'.
Proof.
  induction l as [| x l IH]; intros i l' i' Hs.
  - destruct i; discriminate.
  - destruct i as [| i]; simpl in Hs.
    + injection Hs as <-. destruct i'; reflexivity.
    + apply bind_Ok_inv in Hs as (l'' & Hs & Hl'). injection Hl' as <-.
      destruct i' as [| i']; [reflexivity |].
      apply (IH i l'' i' Hs).
Qed.

Lemma set_Ok_lt {A : Type} (l : list A) (v : A) :
  forall i l', Np.set l i v = Ok l' -> (i < length l)%nat.
Proof.
  induction l as [| x l IH]; intros i l' Hs.
  - destruct i; discriminate.
  - destruct i as [| i]; simpl in *; [lia |].
    apply bind_Ok_inv in Hs as (l'' & Hs & _). apply IH in Hs. lia.
Qed.

Lemma get2_set2 (m m' : list (list R)) (i j i' j' : nat) (v : R) :
  Np.set2 m i j v = Ok m' ->
  Np.get2 m' i' j'
  = if (i =? i')%nat && (j =? j')%nat then Ok v else Np.get2 m i' j'.
Proof.
  unfold Np.set2, Np.get2. intros Hs.
  apply bind_Ok_inv in Hs as (row & Hrow & Hs).
  apply bind_Ok_inv in Hs as (row' & Hrow' & Hs).
  rewrite (get_set _ _ _ _ i' Hs).
  destruct (Nat.eqb_spec i i') as [<- | Hne]; cbn [bind andb].
  - rewrite Hrow. cbn [bind]. apply (get_set _ _ _ _ j' Hrow').
  - reflexivity.
Qed.

(** An assignment [Image[i, j] = v] that succeeds is inside the shape. *)
Lemma set2_Ok_in_shape (m m' : list (list R)) (i j h w : nat) (v : R) :
  has_shape m h w -> Np.set2 m i j v = Ok m' -> (i < h)%nat /\ (j < w)%nat.
Proof.
  intros [Hh Hw] Hs. unfold Np.set2 in Hs.
  apply bind_Ok_inv in Hs as (row & Hrow & Hs).
  apply bind_Ok_inv in Hs as (row' & Hrow' & _).
  split.
  - rewrite <- Hh. exact (get_Ok_lt _ _ _ Hrow).
  - apply set_Ok_lt in Hrow'. apply get_In in Hrow.
    rewrite Forall_forall in Hw. rewrite <- (Hw row Hrow). exact Hrow'.
Qed.

Section Cells.

Variable px : nat -> nat -> result R.
Variables H W : nat.

Lemma delay_and_sum_inner_step (s j : nat) (acc acc' : list (list R)) :
  row_done px H W s j acc ->
  (v <- px s j ;; Np.set2 acc j s v) = Ok acc' ->
  row_done px H W s (S j) acc'.
Proof.
  intros (Hshape & Hprev & Hcur) Hb.
  apply bind_Ok_inv in Hb as (v & Hv & Hset).
  destruct (set2_Ok_in_shape _ _ _ _ _ _ _ Hshape Hset) as [HjH HsW].
  assert (Hkeep : forall s' t, (s', t) <> (s, j) -> written px H W acc s' t ->
                               written px H W acc' s' t).
  { intros s' t Hne (HtH & Hs'W & u & Hu & Hget).
    split; [exact HtH |]. split; [exact Hs'W |].
    exists u. split; [exact Hu |].
    rewrite (get2_set2 _ _ _ _ t s' _ Hset).
    destruct (Nat.eqb_spec j t) as [-> | Hjt];
      destruct (Nat.eqb_spec s s') as [-> | Hss]; cbn [andb];
      try exact Hget.
    congruence. }
  split; [exact (proj1 (set2_Ok _ _ _ _ _ Hset) _ _ Hshape) |]. split.
  - intros s' t Hs' Ht. apply Hkeep; [| apply (Hprev s' t Hs' Ht)].
    intros Heq. injection Heq as -> ->. lia.
  - intros t Ht. destruct (Nat.eq_dec t j) as [-> | Hne].
    + split; [exact HjH |]. split; [exact HsW |].
      exists v. split; [exact Hv |].
      rewrite (get2_set2 _ _ _ _ j s _ Hset), !Nat.eqb_refl. reflexivity.
    + apply Hkeep; [| apply Hcur; lia].
      intros Heq. injection Heq as ->. congruence.
Qed.

Lemma delay_and_sum_outer_step (s : nat) (acc acc' : list (list R)) :
  row_done px H W s 0 acc ->
  foldM (fun Image t => v <- px s t ;; Np.set2 Image t s v) (seq 0 W) acc
  = Ok acc' ->
  row_done px H W (S s) 0 acc'.
Proof.
  intros Hacc Hrow.
  destruct (foldM_seq_invariant (row_done px H W s) _
              (delay_and_sum_inner_step s) W 0%nat acc acc' Hacc Hrow)
    as (Hshape & Hprev & Hcur).
  split; [exact Hshape |]. split; [| intros t Ht; lia].
  intros s' t Hs' Ht. destruct (Nat.eq_dec s' s) as [-> | Hne].
  - apply Hcur. exact Ht.
  - apply Hprev; [lia | exact Ht].
Qed.

End Cells.

(** What a call that returns has done: the image has [len(x_vec)] rows and
    [len(y_vec)] columns; for every grid point [(x_vec[s], y_vec[t])] the
    pixel was computed and is in cell [[t, s]], which requires
    [t < len(x_vec)] and [s < len(y_vec)]. *)
Lemma delay_and_sum_cells (R_ring T_sample v0 : R) (pa_signal : list (list R))
  (x_vec y_vec : list R) (d_delay : R) (ring_error : scalar_or_array)
  (Image : list (list R)) :
  delay_and_sum R_ring T_sample v0 pa_signal x_vec y_vec d_delay ring_error
  = Ok Image ->
  has_shape Image (length x_vec) (length y_vec)
  /\ forall s t, (s < length x_vec)%nat -> (t < length y_vec)%nat ->
       (t < length x_vec)%nat /\ (s < length y_vec)%nat
       /\ exists v,
            pixel R_ring T_sample v0 pa_signal x_vec y_vec d_delay ring_error s t
            = Ok v
            /\ Np.get2 Image t s = Ok v.
Proof.
  unfold delay_and_sum.
  destruct (N_transducer pa_signal =? 0)%nat; [discriminate |].
  intros HI.
  set (px := pixel R_ring T_sample v0 pa_signal x_vec y_vec d_delay ring_error)
    in *.
  destruct (foldM_seq_invariant
              (fun s Image => row_done px (length x_vec) (length y_vec) s 0 Image)
              _ (delay_and_sum_outer_step px (length x_vec) (length y_vec))
              (length x_vec) 0%nat
              (Np.zeros2 (length x_vec) (length y_vec)) Image)
    as (Hshape & Hcells & _).
  - split; [apply zeros2_shape |]. split; intros; lia.
  - exact HI.
  - split; [exact Hshape |]. intros s t Hs Ht. exact (Hcells s t Hs Ht).
Qed.

(** A call on a grid with both axes non-empty returns only when the grid is
    square: otherwise some assignment [Image[t, s]] is outside the
    allocated [(len(x_vec), len(y_vec))] array. *)
Lemma delay_and_sum_returns_only_on_square_grids
  (R_ring T_sample v0 : R) (pa_signal : list (list R)) (x_vec y_vec : list R)
  (d_delay : R) (ring_error : scalar_or_array) (Image : list (list R)) :
  x_vec <> [] -> y_vec <> [] ->
  delay_and_sum R_ring T_sample v0 pa_signal x_vec y_vec d_delay ring_error
  = Ok Image ->
  length x_vec = length y_vec.
Proof.
  intros Hx Hy HI. apply delay_and_sum_cells in HI as [_ Hcells].
  assert (0 < length x_vec)%nat by (destruct x_vec; [congruence | simpl; lia]).
  assert (0 < length y_vec)%nat by (destruct y_vec; [congruence | simpl; lia]).
  destruct (Hcells (length x_vec - 1)%nat (length y_vec - 1)%nat) as (Ht & Hs & _);
    lia.
Qed.

(** ** Delay-and-sum: evaluation on a ring of one transducer *)

(** A single transducer sits at angle [2 pi], that is at [(0, -R_ring)]. *)
Lemma x_transducer_single (R_ring : R) (row : list R) :
  x_transducer R_ring [row] = [0].
Proof.
  unfold x_transducer, angle_transducer, delta_angle, N_transducer. simpl.
  replace (2 * PI / 1 * (0 + 1) - PI) with PI by field.
  rewrite sin_PI. f_equal. ring.
Qed.

Lemma y_transducer_single (R_ring : R) (row : list R) :
  y_transducer R_ring [row] = [- R_ring].
Proof.
  unfold y_transducer, angle_transducer, delta_angle, N_transducer. simpl.
  replace (2 * PI / 1 * (0 + 1) - PI) with PI by field.
  rewrite cos_PI. f_equal. ring.
Qed.

Lemma distance_single (R_ring : R) (row x_vec y_vec : list R) (d_delay e : R)
  (s t : nat) :
  distance_to_transducer R_ring [row] x_vec y_vec d_delay (Scalar e) s t
  = Ok [sqrt ((0 - nth s x_vec 0) ^ 2 + (- R_ring - nth t y_vec 0) ^ 2)
        - d_delay + e].
Proof.
  unfold distance_to_transducer.
  rewrite x_transducer_single, y_transducer_single. reflexivity.
Qed.

(** The pixel seen by a single transducer at distance [dist], when the path
    length turns into the sample index [id]. *)
Lemma pixel_single (R_ring T_sample v0 : R) (row x_vec y_vec : list R)
  (s t : nat) (id : Z) :
  v0 * T_sample <> 0 ->
  IZR id
  <= (sqrt ((0 - nth s x_vec 0) ^ 2 + (- R_ring - nth t y_vec 0) ^ 2) - 0 + 0)
     / (v0 * T_sample)
  < IZR id + 1 ->
  pixel R_ring T_sample v0 [row] x_vec y_vec 0 (Scalar 0) s t
  = (y <- (if guard [row] id then Np.get2 [row] 0 (Z.to_nat id) else Ok 0) ;;
     Ok (Np.mean [y])).
Proof.
  intros Hne Hid. unfold pixel. rewrite distance_single.
  unfold N_transducer. cbn [bind length seq mapM].
  erewrite related_eq;
    [| reflexivity | apply (sample_index_eq _ _ _ id Hne Hid)].
  destruct (guard [row] id); [| reflexivity].
  destruct (Np.get2 [row] 0 (Z.to_nat id)); reflexivity.
Qed.

Lemma distance_on_axis (a b : R) : 0 <= b - a -> sqrt ((0 - 0) ^ 2 + (a - b) ^ 2) = b - a.
Proof.
  intros Hab. replace ((0 - 0) ^ 2 + (a - b) ^ 2) with ((b - a) ^ 2) by ring.
  apply sqrt_pow2. exact Hab.
Qed.

(** C2 (failing input): one transducer, one sample, unit radius, speed and
    sample interval, the single pixel at the centre.  The path length is 1,
    the index is 1 = [num_samples]; the guard of line 71 accepts it and the
    read of line 72 is past the end of the row. *)
Theorem delay_and_sum_reads_past_row_end :
  sample_index 1 1 1 = Ok 1%Z
  /\ guard [[5]] 1 = true
  /\ Np.get2 [[5]] 0 (Z.to_nat 1) = Raise IndexError
  /\ delay_and_sum 1 1 1 [[5]] [0] [0] 0 (Scalar 0) = Raise IndexError.
Proof.
  split; [| split; [reflexivity | split; [reflexivity |]]].
  - apply sample_index_eq; simpl; lra.
  - unfold delay_and_sum. cbn [N_transducer length Nat.eqb seq foldM].
    rewrite (pixel_single 1 1 1 [5] [0] [0] 0 0 1).
    + reflexivity.
    + lra.
    + cbn [nth]. rewrite distance_on_axis by lra. simpl. lra.
Qed.

(** C9 (failing input): the same geometry with the all-zero sinogram
    [[[0]]]: the call raises and returns no image. *)
Theorem delay_and_sum_zero_signal_raises :
  Forall (Forall (fun v => v = 0)) [[0]]
  /\ delay_and_sum 1 1 1 [[0]] [0] [0] 0 (Scalar 0) = Raise IndexError.
Proof.
  split; [repeat constructor |].
  unfold delay_and_sum. cbn [N_transducer length Nat.eqb seq foldM].
  rewrite (pixel_single 1 1 1 [0] [0] [0] 0 0 1).
  - reflexivity.
  - lra.
  - cbn [nth]. rewrite distance_on_axis by lra. simpl. lra.
Qed.

(** C1 (failing input): one x coordinate and two y coordinates.  The image
    is allocated with [len(x_vec) = 1] row and [len(y_vec) = 2] columns, and
    the write [Image[1, 0]] for the grid point [(x_vec[0], y_vec[1])] falls
    outside it. *)
Theorem delay_and_sum_image_shape_swapped :
  has_shape (Np.zeros2 (length [0]) (length [0; 1])) 1 2
  /\ pixel 1 1 1 [[5; 7; 9]] [0] [0; 1] 0 (Scalar 0) 0 1 = Ok (Np.mean [9])
  /\ Np.set2 (Np.zeros2 (length [0]) (length [0; 1])) 1 0 (Np.mean [9])
     = Raise IndexError
  /\ delay_and_sum 1 1 1 [[5; 7; 9]] [0] [0; 1] 0 (Scalar 0) = Raise IndexError.
Proof.
  assert (H0 : pixel 1 1 1 [[5; 7; 9]] [0] [0; 1] 0 (Scalar 0) 0 0
               = Ok (Np.mean [7])).
  { rewrite (pixel_single 1 1 1 [5; 7; 9] [0] [0; 1] 0 0 1).
    - reflexivity.
    - lra.
    - cbn [nth]. rewrite distance_on_axis by lra. simpl. lra. }
  assert (H1 : pixel 1 1 1 [[5; 7; 9]] [0] [0; 1] 0 (Scalar 0) 0 1
               = Ok (Np.mean [9])).
  { rewrite (pixel_single 1 1 1 [5; 7; 9] [0] [0; 1] 0 1 2).
    - reflexivity.
    - lra.
    - cbn [nth]. rewrite distance_on_axis by lra. simpl. lra. }
  split; [| split; [exact H1 | split; [reflexivity |]]].
  - split; [reflexivity | repeat constructor].
  - unfold delay_and_sum. cbn [N_transducer length Nat.eqb seq foldM].
    rewrite H0. cbn [bind]. rewrite H1. reflexivity.
Qed.

(** * Further properties of the code *)

(** ** Delay schedule: the quadric mode and the small counts *)

Lemma last_map_nonempty (g : R -> R) (l : list R) :
  l <> [] -> last (map g l) 0 = g (last l 0).
Proof.
  induction l as [| x l IH]; [congruence |]. intros _.
  destruct l as [| y l]; [reflexivity |].
  change (last (map g (y :: l)) 0 = g (last (y :: l) 0)).
  apply IH. discriminate.
Qed.

(** X1: for [R >= 0], [0 < v0 < v1] and [n_delays >= 2] the quadric
    schedule has [n_delays] values [(1 - v0/v1) * R * sqrt (i / (n_delays - 1))];
    they ascend from 0 to [(1 - v0/v1) * R]. *)
Theorem get_delays_quadric_sorted (R_ v0 v1 : R) (n_delays : Z) :
  0 <= R_ -> 0 < v0 < v1 -> (2 <= n_delays)%Z ->
  exists delays,
    get_delays R_ v0 v1 n_delays "quadric" = Ok delays
    /\ length delays = Z.to_nat n_delays
    /\ (forall i, (i < Z.to_nat n_delays)%nat ->
          nth i delays 0
          = (1 - v0 / v1) * R_ * sqrt (INR i / INR (Z.to_nat n_delays - 1)))
    /\ Sorted Rle delays
    /\ nth 0 delays 0 = 0
    /\ last delays 0 = (1 - v0 / v1) * R_.
Proof.
  intros HR Hv Hn.
  destruct (linspace_spec 0 1 n_delays Hn) as (grid & Hl & Hlen & Hlast & Hnth).
  exists (map (fun u => (1 - v0 / v1) * R_ * sqrt u) grid).
  assert (Hc : 0 <= (1 - v0 / v1) * R_).
  { apply Rmult_le_pos; [left; apply speed_ratio_pos; exact Hv | exact HR]. }
  assert (Hpos : 0 < INR (Z.to_nat n_delays - 1)) by (apply lt_0_INR; lia).
  assert (Hform : forall i, (i < Z.to_nat n_delays)%nat ->
            nth i (map (fun u => (1 - v0 / v1) * R_ * sqrt u) grid) 0
            = (1 - v0 / v1) * R_ * sqrt (INR i / INR (Z.to_nat n_delays - 1))).
  { intros i Hi.
    rewrite (nth_indep _ 0 ((1 - v0 / v1) * R_ * sqrt 0))
      by (rewrite length_map; lia).
    rewrite (map_nth (fun u => (1 - v0 / v1) * R_ * sqrt u)), Hnth by exact Hi.
    do 2 f_equal. unfold Rdiv. ring. }
  split; [unfold get_delays; simpl; rewrite Hl; reflexivity |].
  split; [rewrite length_map; exact Hlen |].
  split; [exact Hform |].
  split; [| split].
  - apply Sorted_of_nth. intros i Hi. rewrite length_map, Hlen in Hi.
    rewrite !Hform by lia.
    apply Rmult_le_compat_l; [exact Hc |].
    apply sqrt_le_1_alt. rewrite S_INR.
    apply Rmult_le_compat_r; [left; apply Rinv_0_lt_compat; exact Hpos | lra].
  - rewrite Hform by lia. simpl.
    replace (0 / INR (Z.to_nat n_delays - 1)) with 0 by (unfold Rdiv; ring).
    rewrite sqrt_0. ring.
  - rewrite last_map_nonempty by (destruct grid; [simpl in Hlen; lia | discriminate]).
    rewrite Hlast, sqrt_1. ring.
Qed.

Lemma get_delays_quadric_sorted_witness :
  exists delays,
    get_delays 2 1 2 3 "quadric" = Ok delays
    /\ length delays = 3%nat
    /\ Sorted Rle delays
    /\ nth 0 delays 0 = 0
    /\ last delays 0 = (1 - 1 / 2) * 2.
Proof.
  destruct (get_delays_quadric_sorted 2 1 2 3) as (d & Hd & Hlen & _ & Hs & H0 & Hl);
    [lra | lra | lia |].
  exists d. auto.
Defined.

(** X2: with a recognised mode and [v1 <> 0], a negative count raises
    [ValueError], the count 0 gives the empty schedule and the count 1 the
    single delay 0, whatever the radius and the speeds. *)
Theorem get_delays_small_counts (R_ v0 v1 : R) (mode : string) :
  v1 <> 0 -> mode = "uniform" \/ mode = "quadric" ->
  (forall n_delays, (n_delays < 0)%Z ->
     get_delays R_ v0 v1 n_delays mode = Raise ValueError)
  /\ get_delays R_ v0 v1 0 mode = Ok []
  /\ get_delays R_ v0 v1 1 mode = Ok [0].
Proof.
  intros _ [-> | ->]; (split; [| split]).
  - intros n Hneg. unfold get_delays, Np.linspace; simpl.
    destruct (Z.ltb_spec n 0); [reflexivity | lia].
  - reflexivity.
  - unfold get_delays, Np.linspace; simpl. do 2 f_equal. ring.
  - intros n Hneg. unfold get_delays, Np.linspace; simpl.
    destruct (Z.ltb_spec n 0); [reflexivity | lia].
  - reflexivity.
  - unfold get_delays, Np.linspace; simpl. do 2 f_equal.
    replace (0 * ((1 - 0) / 0) + 0) with 0 by (unfold Rdiv; ring).
    rewrite sqrt_0. ring.
Qed.

Lemma get_delays_small_counts_witness :
  get_delays 3 1 2 (-1) "quadric" = Raise ValueError
  /\ get_delays 3 1 2 0 "uniform" = Ok []
  /\ get_delays 3 1 2 1 "quadric" = Ok [0].
Proof.
  destruct (get_delays_small_counts 3 1 2 "quadric") as (Hneg & _ & H1);
    [lra | right; reflexivity |].
  destruct (get_delays_small_counts 3 1 2 "uniform") as (_ & H0 & _);
    [lra | left; reflexivity |].
  split; [apply Hneg; lia | split; assumption].
Defined.

(** X3: for [n_delays >= 2] and [v1 <> 0] the uniform schedule has equal
    gaps: every delay exceeds the one before it by
    [1.2 * (1 - v0/v1) * R / (n_delays - 1)]. *)
Theorem get_delays_uniform_gap (R_ v0 v1 : R) (n_delays : Z) :
  v1 <> 0 -> (2 <= n_delays)%Z ->
  exists delays,
    get_delays R_ v0 v1 n_delays "uniform" = Ok delays
    /\ forall i, (S i < Z.to_nat n_delays)%nat ->
         nth (S i) delays 0 - nth i delays 0
         = 1.2 * (1 - v0 / v1) * R_ / INR (Z.to_nat n_delays - 1).
Proof.
  intros _ Hn. unfold get_delays; simpl.
  destruct (linspace_spec ((1 - v0 / v1) * R_ * 0) ((1 - v0 / v1) * R_ * 1.2)
              n_delays Hn) as (l & Hl & _ & _ & Hnth).
  exists l. split; [exact Hl |]. intros i Hi.
  rewrite !Hnth by lia. rewrite S_INR. unfold Rdiv. ring.
Qed.

Lemma get_delays_uniform_gap_witness :
  exists delays,
    get_delays 1 1 2 3 "uniform" = Ok delays
    /\ nth 1 delays 0 - nth 0 delays 0 = 1.2 * (1 - 1 / 2) * 1 / INR (3 - 1)
    /\ nth 2 delays 0 - nth 1 delays 0 = 1.2 * (1 - 1 / 2) * 1 / INR (3 - 1).
Proof.
  destruct (get_delays_uniform_gap 1 1 2 3) as (d & Hd & Hgap); [lra | lia |].
  exists d. split; [exact Hd |]. split; apply Hgap; simpl; lia.
Defined.

(** ** Weights: the closed form of 'euclidean', the shape of 'onehot' *)

Lemma flat3_single_pixel (g : R -> R) (delays : list R) :
  flat3 (map (fun d => [[g d]]) delays) = map g delays.
Proof.
  unfold flat3. induction delays as [| d delays IH]; [reflexivity |].
  simpl. f_equal. exact IH.
Qed.

Lemma exp_le (a b : R) : a <= b -> exp a <= exp b.
Proof.
  intros [Hlt | ->]; [left; apply exp_increasing; exact Hlt | right; reflexivity].
Qed.

Lemma sq_le_of_abs_le (a b : R) : Rabs a <= Rabs b -> a ^ 2 <= b ^ 2.
Proof.
  intros Hab. rewrite <- (pow2_abs a), <- (pow2_abs b).
  apply pow_incr. split; [apply Rabs_pos | exact Hab].
Qed.

(** X4: for a float [C0] and a non-empty delay array whose squared
    distances [(delays[k] - C0)^2] are at most 600, so that [exp] and its
    sum are finite in double precision, the 'euclidean' weight of delay [k]
    is [n_delays * exp((delays[k] - C0)^2)] over the sum of
    [exp((delays[j] - C0)^2)]; so a delay that is farther from [C0] never
    has the smaller weight. *)
Theorem get_weights_euclidean_grows_with_distance (c : R) (delays : list R) :
  delays <> [] ->
  exp_in_range (C0_scalar c) delays ->
  exists w,
    get_weights (C0_scalar c) delays "euclidean" = Ok w
    /\ (forall k, (k < length delays)%nat ->
          weight_at w k 0 0
          = INR (length delays) * exp ((nth k delays 0 - c) ^ 2)
            / Np.sum (map (fun d => exp ((d - c) ^ 2)) delays))
    /\ (forall i j, (i < length delays)%nat -> (j < length delays)%nat ->
          Rabs (nth i delays 0 - c) <= Rabs (nth j delays 0 - c) ->
          weight_at w i 0 0 <= weight_at w j 0 0).
Proof.
  intros Hne _.
  set (E := Np.sum (map (fun d => exp ((d - c) ^ 2)) delays)).
  assert (HE : 0 < E).
  { unfold E. rewrite <- (map_map (fun d => (d - c) ^ 2) exp).
    apply sum_exp_pos. destruct delays; [congruence | discriminate]. }
  assert (Hn : 0 < INR (length delays)).
  { apply lt_0_INR. destruct delays; [congruence | simpl; lia]. }
  assert (Hflat : flat3 (sq_distance (C0_scalar c) delays)
                  = map (fun d => (d - c) ^ 2) delays)
    by apply flat3_single_pixel.
  assert (HE' : Np.sum3 (map3d exp (sq_distance (C0_scalar c) delays)) = E).
  { rewrite sum3_flat3, flat3_map3d, Hflat, map_map. reflexivity. }
  assert (HS : Np.sum3
                 (map3d (fun e => e / Np.sum3 (map3d exp (sq_distance (C0_scalar c) delays)))
                    (map3d exp (sq_distance (C0_scalar c) delays))) = 1).
  { rewrite sum3_flat3, flat3_map3d, flat3_map3d, sum3_flat3, flat3_map3d, Hflat.
    apply (euclidean_normalisation (map (fun d => (d - c) ^ 2) delays) 1);
      [destruct delays; [congruence | discriminate] | lra]. }
  rewrite get_weights_euclidean_eq. cbv zeta. rewrite HS, HE'.
  eexists. split; [reflexivity |].
  assert (Hform : forall k, (k < length delays)%nat ->
            weight_at
              (map3d (fun w => w / 1 * INR (length delays))
                 (map3d (fun e => e / E)
                    (map3d exp (sq_distance (C0_scalar c) delays)))) k 0 0
            = INR (length delays) * exp ((nth k delays 0 - c) ^ 2) / E).
  { intros k Hk. unfold weight_at, map3d, map2d, sq_distance.
    rewrite !map_map.
    rewrite (nth_indep _ []
               ((fun d => [[exp ((d - c) ^ 2) / E / 1 * INR (length delays)]]) 0))
      by (rewrite length_map; exact Hk).
    rewrite (map_nth (fun d => [[exp ((d - c) ^ 2) / E / 1 * INR (length delays)]])).
    simpl. field. lra. }
  split; [exact Hform |].
  intros i j Hi Hj Hdist. rewrite (Hform i Hi), (Hform j Hj).
  apply Rmult_le_compat_r; [left; apply Rinv_0_lt_compat; exact HE |].
  apply Rmult_le_compat_l; [lra |].
  apply exp_le, sq_le_of_abs_le. exact Hdist.
Qed.

Lemma get_weights_euclidean_grows_with_distance_witness :
  exp_in_range (C0_scalar 0) [0; 1]
  /\ exists w,
       get_weights (C0_scalar 0) [0; 1] "euclidean" = Ok w
       /\ weight_at w 0 0 0 <= weight_at w 1 0 0.
Proof.
  assert (Hrange : exp_in_range (C0_scalar 0) [0; 1]).
  { unfold exp_in_range, sq_distance_bound. repeat constructor; simpl; lra. }
  split; [exact Hrange |].
  destruct (get_weights_euclidean_grows_with_distance 0 [0; 1])
    as (w & Hw & _ & Hmono); [discriminate | exact Hrange |].
  exists w. split; [exact Hw |].
  apply Hmono; simpl; [lia | lia |].
  rewrite !Rminus_0_r, Rabs_R0, Rabs_R1. lra.
Defined.

Lemma sum_one_hot_row (k n a : nat) :
  (a <= k < a + n)%nat ->
  Np.sum (map (fun i => if (i =? k)%nat then 1 else 0) (seq a n)) = 1.
Proof.
  revert a. induction n as [| n IH]; intros a Hk; [lia |]. simpl.
  destruct (Nat.eqb_spec a k) as [-> | Hne].
  - assert (Hrest : forall m b, (k < b)%nat ->
              Np.sum (map (fun i => if (i =? k)%nat then 1 else 0) (seq b m)) = 0).
    { induction m as [| m IHm]; intros b Hb; [reflexivity |]. simpl.
      destruct (Nat.eqb_spec b k); [lia |]. rewrite IHm by lia. ring. }
    rewrite Hrest by lia. ring.
  - rewrite IH by lia. ring.
Qed.

(** X5: whatever [C0] is, a float or a per-pixel field, a call with
    'onehot' that returns gives a field of shape [[n_delays, 1, 1]] with a
    single 1: one delay index is selected for the whole field, and the
    weights sum to 1 along the delay axis (not to [n_delays]). *)
Theorem get_weights_onehot_single_index
  (C0 : C0_arg) (delays : list R) (w : list (list (list R))) :
  get_weights C0 delays "onehot" = Ok w ->
  exists k,
    (k < length delays)%nat
    /\ w = one_hot (length delays) k
    /\ delay_axis_sum w 0 0 = 1.
Proof.
  unfold get_weights; simpl. intros Hw.
  apply bind_Ok_inv in Hw as (a & _ & Hw).
  apply bind_Ok_inv in Hw as (k & _ & Hw).
  assert (Hk : (k < length delays)%nat).
  { apply set_Ok_lt in Hw. rewrite repeat_length in Hw. exact Hw. }
  rewrite (set_repeat _ _ _ _ Hk) in Hw. injection Hw as <-.
  exists k. split; [exact Hk |].
  assert (Hshape : map (fun i => if (i =? k)%nat then [[1]] else [[0]])
                       (seq 0 (length delays))
                   = one_hot (length delays) k).
  { unfold one_hot. apply map_ext. intros i. destruct (i =? k)%nat; reflexivity. }
  rewrite Hshape. split; [reflexivity |].
  unfold delay_axis_sum, one_hot. rewrite map_map. simpl.
  apply sum_one_hot_row. lia.
Qed.

Lemma get_weights_onehot_single_index_witness :
  exists k,
    (k < 2)%nat
    /\ get_weights (C0_field [[1]; [2]]) [0; 3] "onehot" = Ok (one_hot 2 k)
    /\ delay_axis_sum (one_hot 2 k) 0 0 = 1.
Proof.
  assert (Hw : get_weights (C0_field [[1]; [2]]) [0; 3] "onehot"
               = Ok (one_hot 2 0)).
  { unfold get_weights; simpl. unfold Np.broadcast2; simpl.
    unfold Np.stretch; simpl.
    destruct (Rlt_dec (Rabs (3 - 1)) (Rabs (0 - 1))) as [H | _].
    { exfalso. revert H. unfold Rabs.
      destruct (Rcase_abs (3 - 1)); destruct (Rcase_abs (0 - 1)); lra. }
    destruct (Rlt_dec (Rabs (0 - 2)) (Rabs (0 - 1))) as [H | _].
    { exfalso. revert H. unfold Rabs.
      destruct (Rcase_abs (0 - 2)); destruct (Rcase_abs (0 - 1)); lra. }
    destruct (Rlt_dec (Rabs (3 - 2)) (Rabs (0 - 1))) as [H | _].
    { exfalso. revert H. unfold Rabs.
      destruct (Rcase_abs (3 - 2)); destruct (Rcase_abs (0 - 1)); lra. }
    reflexivity. }
  destruct (get_weights_onehot_single_index _ _ _ Hw) as (k & Hk & Heq & Hsum).
  exists k. simpl in Hk, Heq. rewrite <- Heq.
  split; [exact Hk |]. split; [exact Hw | exact Hsum].
Defined.

Lemma broadcast2_empty (f : R -> R -> R) (row b : list R) :
  Np.broadcast2 f [] row = Ok b -> b = [].
Proof.
  unfold Np.broadcast2, Np.broadcast_dim. simpl.
  destruct (length row =? 1)%nat; simpl; [congruence |].
  destruct (length row) as [| m]; simpl; [congruence | discriminate].
Qed.

(** X6: on an empty delay array 'uniform' and 'euclidean' return the empty
    weight array, while 'onehot' raises [ValueError] (the argmin of an empty
    sequence), whatever [C0] is. *)
Theorem get_weights_empty_delays (C0 : C0_arg) :
  get_weights C0 [] "uniform" = Ok []
  /\ get_weights C0 [] "euclidean" = Ok []
  /\ get_weights C0 [] "onehot" = Raise ValueError.
Proof.
  split; [reflexivity |]. split; [destruct C0; reflexivity |].
  unfold get_weights; simpl.
  destruct (abs_diff_flat C0 []) as [a | e] eqn:Ha; simpl.
  - assert (Hnil : a = []).
    { destruct C0 as [c | f]; simpl in Ha; [congruence |].
      apply bind_Ok_inv in Ha as (rows & Hrows & Ha). injection Ha as <-.
      assert (Hall : Forall (fun b => b = []) rows).
      { apply (mapM_Ok_Forall _ _ _ (fun row b => broadcast2_empty _ row b) _ Hrows). }
      clear Hrows. induction Hall as [| b rows -> _ IH]; [reflexivity | exact IH]. }
    rewrite Hnil. reflexivity.
  - apply abs_diff_flat_raises in Ha. rewrite Ha. reflexivity.
Qed.

(** ** Homogeneous wavefront models: bounds and the truncation error *)

Lemma speed_ratio_nonneg (v0 v1 : R) : 0 < v1 -> v0 <= v1 -> 0 <= 1 - v0 / v1.
Proof.
  intros Hv1 Hv. assert (v0 / v1 <= 1); [| lra].
  apply (Rmult_le_reg_r v1); [exact Hv1 |]. unfold Rdiv.
  rewrite Rmult_assoc, Rinv_l by lra. lra.
Qed.

Lemma sin_cos_sq (a : R) : sin a ^ 2 + cos a ^ 2 = 1.
Proof.
  pose proof (sin2_cos2 a) as H. unfold Rsqr in H. lra.
Qed.

Lemma sqrt_le_of_sq (x y : R) : 0 <= y -> x <= y ^ 2 -> sqrt x <= y.
Proof.
  intros Hy Hxy. rewrite <- (sqrt_pow2 y Hy). apply sqrt_le_1_alt. exact Hxy.
Qed.

Lemma sqrt_ge_of_sq (x y : R) : 0 <= y -> y ^ 2 <= x -> y <= sqrt x.
Proof.
  intros Hy Hxy. rewrite <- (sqrt_pow2 y Hy). apply sqrt_le_1_alt. exact Hxy.
Qed.

(** X7: for a point inside the circle ([0 <= r < R]) and speeds
    [v0 <= v1], [v1 > 0], the exact model lies at every angle between
    [(1 - v0/v1) * (R - r)] and [(1 - v0/v1) * (R + r)], the shortest and the
    longest chord through the point. *)
Theorem wavefront_real_inside_bounds (R_ r phi v0 v1 theta : R) :
  0 <= r < R_ -> 0 < v1 -> v0 <= v1 ->
  (1 - v0 / v1) * (R_ - r) <= wavefront_real R_ r phi v0 v1 theta
  <= (1 - v0 / v1) * (R_ + r).
Proof.
  intros [Hr0 HrR] Hv1 Hv. unfold wavefront_real.
  destruct (Rlt_dec r R_) as [_ | Hn]; [| contradiction].
  pose proof (speed_ratio_nonneg v0 v1 Hv1 Hv) as Hc.
  pose proof (sin_cos_sq (theta - phi)) as Hsc.
  set (s := sin (theta - phi)) in *. set (c := cos (theta - phi)) in *.
  assert (Hcb : -1 <= c <= 1) by (split; nra).
  assert (Hup : sqrt (R_ ^ 2 - (r * s) ^ 2) <= R_).
  { apply sqrt_le_of_sq; [lra |]. nra. }
  assert (Hlo : R_ - r - r * c <= sqrt (R_ ^ 2 - (r * s) ^ 2)).
  { destruct (Rle_dec 0 (R_ - r - r * c)) as [Hpos | Hneg].
    - apply sqrt_ge_of_sq; [exact Hpos |].
      assert (Hs2 : (r * s) ^ 2 = r ^ 2 * (1 - c ^ 2)) by nra.
      rewrite Hs2.
      assert (0 <= 2 * r * (1 + c) * (R_ - r)).
      { apply Rmult_le_pos; [apply Rmult_le_pos |]; nra. }
      nra.
    - pose proof (sqrt_pos (R_ ^ 2 - (r * s) ^ 2)). lra. }
  split; apply Rmult_le_compat_l; try exact Hc; nra.
Qed.

Lemma wavefront_real_inside_bounds_witness :
  (1 - 1 / 2) * (2 - 1) <= wavefront_real 2 1 0 1 2 1 <= (1 - 1 / 2) * (2 + 1).
Proof.
  apply (wavefront_real_inside_bounds 2 1 0 1 2 1); lra.
Defined.

(** X8: for a point outside the circle ([r >= R >= 0]) and speeds
    [v0 <= v1], [v1 > 0], the exact model lies between 0 and
    [(1 - v0/v1) * 2 R]; it is 0 at the angles that look away from the
    circle ([cos (phi - theta) < 0]) and at those whose ray misses it
    ([(r sin (theta - phi))^2 >= R^2]). *)
Theorem wavefront_real_outside (R_ r phi v0 v1 theta : R) :
  0 <= R_ <= r -> 0 < v1 -> v0 <= v1 ->
  0 <= wavefront_real R_ r phi v0 v1 theta <= (1 - v0 / v1) * (2 * R_)
  /\ (cos (phi - theta) < 0 -> wavefront_real R_ r phi v0 v1 theta = 0)
  /\ (R_ ^ 2 <= (r * sin (theta - phi)) ^ 2 ->
      wavefront_real R_ r phi v0 v1 theta = 0).
Proof.
  intros [HR HRr] Hv1 Hv. unfold wavefront_real.
  destruct (Rlt_dec r R_) as [Hlt | _]; [lra |].
  pose proof (speed_ratio_nonneg v0 v1 Hv1 Hv) as Hc.
  set (a := (r * sin (theta - phi)) ^ 2).
  assert (Ha : 0 <= a) by apply pow2_ge_0.
  assert (Hq0 : 0 <= sqrt (Rmax (R_ ^ 2 - a) 0)) by apply sqrt_pos.
  assert (HqR : sqrt (Rmax (R_ ^ 2 - a) 0) <= R_).
  { apply sqrt_le_of_sq; [exact HR |]. apply Rmax_lub; nra. }
  assert (Hind : 0 <= indicator_ge (cos (phi - theta)) 0 <= 1).
  { unfold indicator_ge. destruct (Rge_dec (cos (phi - theta)) 0); lra. }
  split; [| split].
  - split.
    + apply Rmult_le_pos; [apply Rmult_le_pos |]; lra.
    + rewrite !Rmult_assoc. apply Rmult_le_compat_l; [exact Hc |].
      apply Rmult_le_compat_l; [lra |]. nra.
  - intros Hcos. unfold indicator_ge.
    destruct (Rge_dec (cos (phi - theta)) 0); [lra | ring].
  - intros Hmiss. rewrite Rmax_right by lra. rewrite sqrt_0. ring.
Qed.

Lemma wavefront_real_outside_witness :
  0 <= wavefront_real 1 2 0 1 2 PI <= (1 - 1 / 2) * (2 * 1)
  /\ wavefront_real 1 2 0 1 2 PI = 0.
Proof.
  destruct (wavefront_real_outside 1 2 0 1 2 PI) as (Hb & Haway & _);
    [lra | lra | lra |].
  split; [exact Hb |]. apply Haway.
  rewrite Rminus_0_l, cos_neg, cos_PI. lra.
Defined.

(** X9: for [0 <= r < R] and [v1 <> 0] the two homogeneous models also
    agree at the angle opposite to the point, [theta = phi + pi], where both
    equal [(1 - v0/v1) * (R - r)]. *)
Theorem wavefront_models_agree_opposite (R_ v0 v1 r phi : R) :
  0 <= r < R_ -> v1 <> 0 ->
  let '(C0, C1, phi1, C2, phi2) := get_fourier_params r phi R_ v0 v1 in
  wavefront_fourier C0 C1 phi1 C2 phi2 (phi + PI) = (1 - v0 / v1) * (R_ - r)
  /\ wavefront_real R_ r phi v0 v1 (phi + PI) = (1 - v0 / v1) * (R_ - r).
Proof.
  intros [Hr0 HrR] Hv1. unfold get_fourier_params, wavefront_fourier, wavefront_real.
  destruct (Rlt_dec r R_) as [_ | Hn]; [| contradiction].
  replace (phi + PI - phi) with PI by ring.
  rewrite cos_PI, sin_PI, cos_2PI. split.
  - field. split; lra.
  - replace (R_ ^ 2 - (r * 0) ^ 2) with (R_ ^ 2) by ring.
    rewrite sqrt_pow2 by lra. ring.
Qed.

Lemma wavefront_models_agree_opposite_witness :
  let '(C0, C1, phi1, C2, phi2) := get_fourier_params 1 0 2 1 2 in
  wavefront_fourier C0 C1 phi1 C2 phi2 (0 + PI) = (1 - 1 / 2) * (2 - 1)
  /\ wavefront_real 2 1 0 1 2 (0 + PI) = (1 - 1 / 2) * (2 - 1).
Proof.
  apply (wavefront_models_agree_opposite 2 1 2 1 0); lra.
Defined.

Lemma chord_truncation (R_ a : R) :
  0 < R_ -> 0 <= a <= R_ ^ 2 ->
  0 <= R_ - a / (2 * R_) - sqrt (R_ ^ 2 - a) <= a ^ 2 / (2 * R_ ^ 3).
Proof.
  intros HR [Ha0 HaR].
  set (u := a / (2 * R_)).
  assert (Hu : a = 2 * R_ * u) by (unfold u; field; lra).
  assert (Hu0 : 0 <= u).
  { unfold u. apply Rmult_le_pos; [exact Ha0 |].
    left. apply Rinv_0_lt_compat. lra. }
  assert (HuR : 2 * u <= R_) by nra.
  set (q := sqrt (R_ ^ 2 - a)).
  assert (Hq0 : 0 <= q) by apply sqrt_pos.
  assert (Hq2 : q ^ 2 = R_ ^ 2 - a) by (apply pow2_sqrt; lra).
  assert (Hqt : q <= R_ - u).
  { apply sqrt_le_of_sq; [lra |]. nra. }
  assert (Hbound : a ^ 2 / (2 * R_ ^ 3) = 2 * u ^ 2 / R_).
  { rewrite Hu. field. lra. }
  rewrite Hbound. split; [lra |].
  apply (Rmult_le_reg_r R_); [exact HR |].
  replace (2 * u ^ 2 / R_ * R_) with (2 * u ^ 2) by (field; lra).
  assert (Hprod : (R_ - u - q) * (R_ - u + q) = u ^ 2) by nra.
  assert (0 <= (R_ - u - q) * (2 * (R_ - u + q) - R_)).
  { apply Rmult_le_pos; lra. }
  nra.
Qed.

(** X10: for a point inside the circle ([0 <= r < R]) and speeds
    [v0 <= v1], [v1 > 0], the truncated Fourier model is at no angle below
    the exact model, and exceeds it by at most [(1 - v0/v1) * r^4 / (2 R^3)]. *)
Theorem wavefront_fourier_truncation_error (R_ v0 v1 r phi theta : R) :
  0 <= r < R_ -> 0 < v1 -> v0 <= v1 ->
  let '(C0, C1, phi1, C2, phi2) := get_fourier_params r phi R_ v0 v1 in
  0 <= wavefront_fourier C0 C1 phi1 C2 phi2 theta
       - wavefront_real R_ r phi v0 v1 theta
    <= (1 - v0 / v1) * (r ^ 4 / (2 * R_ ^ 3)).
Proof.
  intros [Hr0 HrR] Hv1 Hv. unfold get_fourier_params, wavefront_fourier, wavefront_real.
  destruct (Rlt_dec r R_) as [_ | Hn]; [| contradiction].
  pose proof (speed_ratio_nonneg v0 v1 Hv1 Hv) as Hc.
  pose proof (sin_cos_sq (theta - phi)) as Hsc.
  rewrite cos_2a.
  set (s := sin (theta - phi)) in *. set (c := cos (theta - phi)) in *.
  set (k := 1 - v0 / v1) in *.
  assert (HR : 0 < R_) by lra.
  assert (Hs2 : 0 <= s ^ 2 <= 1) by (split; nra).
  assert (Ha : 0 <= (r * s) ^ 2 <= R_ ^ 2).
  { split; [apply pow2_ge_0 |].
    replace ((r * s) ^ 2) with (r ^ 2 * s ^ 2) by ring. nra. }
  destruct (chord_truncation R_ ((r * s) ^ 2) HR Ha) as [Hlo Hhi].
  assert (Hdiff :
    k * R_ * (1 - r ^ 2 / (4 * R_ ^ 2)) + k * r * c
    + k * r ^ 2 / (4 * R_) * (c * c - s * s)
    - k * (sqrt (R_ ^ 2 - (r * s) ^ 2) + r * c)
    = k * (R_ - (r * s) ^ 2 / (2 * R_) - sqrt (R_ ^ 2 - (r * s) ^ 2))).
  { replace (c * c) with (1 - s ^ 2) by nra. field. lra. }
  rewrite Hdiff. split.
  - apply Rmult_le_pos; assumption.
  - apply Rmult_le_compat_l; [exact Hc |].
    apply (Rle_trans _ _ _ Hhi).
    unfold Rdiv. apply Rmult_le_compat_r.
    + left. apply Rinv_0_lt_compat. apply Rmult_lt_0_compat; [lra |].
      apply pow_lt. exact HR.
    + replace (((r * s) ^ 2) ^ 2) with (r ^ 4 * (s ^ 2) ^ 2) by ring.
      assert (0 <= r ^ 4) by (replace (r ^ 4) with ((r ^ 2) ^ 2) by ring; apply pow2_ge_0).
      assert ((s ^ 2) ^ 2 <= 1) by nra.
      nra.
Qed.

Lemma wavefront_fourier_truncation_error_witness :
  let '(C0, C1, phi1, C2, phi2) := get_fourier_params 1 0 2 1 2 in
  0 <= wavefront_fourier C0 C1 phi1 C2 phi2 1 - wavefront_real 2 1 0 1 2 1
    <= (1 - 1 / 2) * (1 ^ 4 / (2 * 2 ^ 3)).
Proof.
  apply (wavefront_fourier_truncation_error 2 1 2 1 0 1); lra.
Defined.

(** ** Grid coordinates: [np.arctan2] and the polar form *)

Lemma hypot_factor (x1 x2 : R) :
  x2 <> 0 ->
  sqrt (x1 ^ 2 + x2 ^ 2) = Rabs x2 * sqrt (1 + (x1 / x2)²)
  /\ 0 < sqrt (1 + (x1 / x2)²).
Proof.
  intros Hx2.
  assert (Hw : 0 < 1 + (x1 / x2)²) by (pose proof (Rle_0_sqr (x1 / x2)); lra).
  split; [| apply sqrt_lt_R0; exact Hw].
  apply sqrt_lem_1.
  - pose proof (pow2_ge_0 x1). pose proof (pow2_ge_0 x2). lra.
  - apply Rmult_le_pos; [apply Rabs_pos | apply sqrt_pos].
  - replace (Rabs x2 * sqrt (1 + (x1 / x2)²) * (Rabs x2 * sqrt (1 + (x1 / x2)²)))
      with (Rabs x2 ^ 2 * (sqrt (1 + (x1 / x2)²) * sqrt (1 + (x1 / x2)²))) by ring.
    rewrite sqrt_sqrt by lra. rewrite pow2_abs. unfold Rsqr. field. exact Hx2.
Qed.

(** [np.arctan2(x1, x2)] is the angle of the point [(x2, x1)]: with
    [r = sqrt (x1^2 + x2^2)], [x1 = r sin] and [x2 = r cos] of it, and it
    lies in [(-pi, pi]]. *)
Lemma arctan2_polar (x1 x2 : R) :
  sqrt (x1 ^ 2 + x2 ^ 2) * sin (Np.arctan2 x1 x2) = x1
  /\ sqrt (x1 ^ 2 + x2 ^ 2) * cos (Np.arctan2 x1 x2) = x2
  /\ - PI < Np.arctan2 x1 x2 <= PI.
Proof.
  pose proof PI_RGT_0 as Hpi.
  pose proof (atan_bound (x1 / x2)) as Hb.
  unfold Np.arctan2.
  destruct (Rlt_dec 0 x2) as [Hpos | Hnpos].
  - destruct (hypot_factor x1 x2) as [Hr Hw]; [lra |].
    rewrite Hr, sin_atan, cos_atan, (Rabs_pos_eq x2) by lra.
    split; [field; lra |]. split; [field; lra | lra].
  - destruct (Rlt_dec x2 0) as [Hneg | Hnneg].
    + destruct (hypot_factor x1 x2) as [Hr Hw]; [lra |].
      rewrite Hr, (Rabs_left x2) by lra.
      destruct (Rle_dec 0 x1) as [Hx1 | Hx1].
      * rewrite neg_sin, neg_cos, sin_atan, cos_atan.
        split; [field; lra |]. split; [field; lra |].
        assert (atan (x1 / x2) <= 0); [| lra].
        assert (Ht : x1 / x2 <= 0).
        { unfold Rdiv. assert (/ x2 < 0) by (apply Rinv_lt_0_compat; exact Hneg). nra. }
        destruct Ht as [Ht | Ht].
        -- left. rewrite <- atan_0. apply atan_increasing. exact Ht.
        -- rewrite Ht, atan_0. lra.
      * rewrite sin_minus, cos_minus, sin_PI, cos_PI, sin_atan, cos_atan.
        split; [field; lra |]. split; [field; lra |].
        assert (0 < atan (x1 / x2)); [| lra].
        rewrite <- atan_0. apply atan_increasing.
        unfold Rdiv. assert (/ x2 < 0) by (apply Rinv_lt_0_compat; exact Hneg). nra.
    + assert (Hx2 : x2 = 0) by lra. subst x2.
      replace (x1 ^ 2 + 0 ^ 2) with (x1 ^ 2) by ring.
      destruct (Rlt_dec 0 x1) as [Hx1 | Hx1].
      * rewrite sqrt_pow2, sin_PI2, cos_PI2 by lra.
        split; [ring |]. split; [ring | lra].
      * destruct (Rlt_dec x1 0) as [Hx1' | Hx1'].
        -- rewrite <- (pow2_abs x1), sqrt_pow2, (Rabs_left x1) by (try apply Rabs_pos; lra).
           rewrite sin_neg, cos_neg, sin_PI2, cos_PI2.
           split; [ring |]. split; [ring | lra].
        -- assert (Hx0 : x1 = 0) by lra. subst x1.
           rewrite sin_0, cos_0. replace (0 ^ 2) with 0 by ring. rewrite sqrt_0.
           split; [ring |]. split; [ring | lra].
Qed.

(** X11: the polar coordinates returned by [get_coordinates] give back the
    Cartesian ones as [x = r sin phi], [y = r cos phi] (the angle is
    measured from the y axis), with [r >= 0] and [phi] in [(-pi, pi]]; [r]
    is the radius that [get_r_C0] computes for the same grid point. *)
Theorem get_coordinates_polar (i j : Z) (l : R) :
  let '(x, y, r, phi) := get_coordinates i j l in
  x = r * sin phi /\ y = r * cos phi
  /\ 0 <= r /\ - PI < phi <= PI
  /\ forall R_ v0 v1, fst (get_r_C0 i j R_ l v0 v1) = r.
Proof.
  unfold get_coordinates.
  destruct (arctan2_polar (IZR (j - 12) * l / 4) (IZR (12 - i) * l / 4))
    as (Hx & Hy & Hphi).
  split; [symmetry; exact Hx |]. split; [symmetry; exact Hy |].
  split; [apply sqrt_pos |]. split; [exact Hphi | reflexivity].
Qed.

(** ** The zeroth coefficient on the calibration grid *)

(** X12: for [R <> 0] and [v1 <> 0] the [(r, C0)] of [get_r_C0] is
    unchanged when the grid index pair is mirrored about the centre index 12
    along either axis, or transposed. *)
Theorem get_r_C0_symmetric (i j : Z) (R_ l v0 v1 : R) :
  R_ <> 0 -> v1 <> 0 ->
  get_r_C0 (24 - i) j R_ l v0 v1 = get_r_C0 i j R_ l v0 v1
  /\ get_r_C0 i (24 - j) R_ l v0 v1 = get_r_C0 i j R_ l v0 v1
  /\ get_r_C0 j i R_ l v0 v1 = get_r_C0 i j R_ l v0 v1.
Proof.
  intros _ _.
  assert (Hr : forall a b c d : R, a ^ 2 + b ^ 2 = c ^ 2 + d ^ 2 ->
            (sqrt (a ^ 2 + b ^ 2),
             Rmax 0 ((1 - v0 / v1) * R_
                     * (1 - sqrt (a ^ 2 + b ^ 2) ^ 2 / (4 * R_ ^ 2))))
            = (sqrt (c ^ 2 + d ^ 2),
               Rmax 0 ((1 - v0 / v1) * R_
                       * (1 - sqrt (c ^ 2 + d ^ 2) ^ 2 / (4 * R_ ^ 2))))).
  { intros a b c d ->. reflexivity. }
  unfold get_r_C0. split; [| split]; apply Hr; rewrite !minus_IZR; field.
Qed.

Lemma get_r_C0_symmetric_witness :
  get_r_C0 (24 - 10) 15 1 4 1 2 = get_r_C0 10 15 1 4 1 2
  /\ get_r_C0 10 (24 - 15) 1 4 1 2 = get_r_C0 10 15 1 4 1 2
  /\ get_r_C0 15 10 1 4 1 2 = get_r_C0 10 15 1 4 1 2.
Proof.
  apply (get_r_C0_symmetric 10 15 1 4 1 2); lra.
Defined.

Lemma get_delays_ends (R_ v0 v1 : R) (n_delays : Z) (mode : string) :
  (2 <= n_delays)%Z -> mode = "uniform" \/ mode = "quadric" ->
  exists delays,
    get_delays R_ v0 v1 n_delays mode = Ok delays
    /\ nth 0 delays 0 = 0
    /\ ((1 - v0 / v1) * R_ <= last delays 0 \/ (1 - v0 / v1) * R_ < 0).
Proof.
  intros Hn [-> | ->]; unfold get_delays; simpl.
  - destruct (linspace_spec ((1 - v0 / v1) * R_ * 0) ((1 - v0 / v1) * R_ * 1.2)
                n_delays Hn) as (l & Hl & _ & Hlast & Hnth).
    exists l. split; [exact Hl |]. split.
    + rewrite Hnth by lia. simpl. lra.
    + rewrite Hlast. lra.
  - destruct (linspace_spec 0 1 n_delays Hn) as (l & Hl & Hlen & Hlast & Hnth).
    rewrite Hl. simpl. eexists. split; [reflexivity |]. split.
    + rewrite nth_map_lt by lia. rewrite Hnth by lia. simpl.
      replace (0 + 0 * ((1 - 0) / INR (Z.to_nat n_delays - 1))) with 0 by ring.
      rewrite sqrt_0. ring.
    + left. rewrite last_map_nonempty
        by (destruct l; [simpl in Hlen; lia | discriminate]).
      rewrite Hlast, sqrt_1. lra.
Qed.

(** X13: for [R > 0] and [0 < v0 < v1] the [C0] of every grid point lies
    between 0 and [(1 - v0/v1) * R], hence between the first and the last
    candidate delay of a schedule of either mode with at least two delays. *)
Theorem get_r_C0_within_schedule
  (i j : Z) (R_ l v0 v1 : R) (n_delays : Z) (mode : string) :
  0 < R_ -> 0 < v0 < v1 -> (2 <= n_delays)%Z ->
  mode = "uniform" \/ mode = "quadric" ->
  0 <= snd (get_r_C0 i j R_ l v0 v1) <= (1 - v0 / v1) * R_
  /\ exists delays,
       get_delays R_ v0 v1 n_delays mode = Ok delays
       /\ nth 0 delays 0 <= snd (get_r_C0 i j R_ l v0 v1) <= last delays 0.
Proof.
  intros HR Hv Hn Hmode.
  pose proof (speed_ratio_pos v0 v1 Hv) as Hc.
  assert (Hc0 : 0 <= snd (get_r_C0 i j R_ l v0 v1) <= (1 - v0 / v1) * R_).
  { unfold get_r_C0, snd. split; [apply Rmax_l |].
    assert (HcR : 0 < (1 - v0 / v1) * R_) by (apply Rmult_lt_0_compat; assumption).
    apply Rmax_lub; [lra |].
    set (r := sqrt ((IZR (j - 12) * l / 4) ^ 2 + (IZR (12 - i) * l / 4) ^ 2)).
    assert (0 <= r ^ 2 / (4 * R_ ^ 2)).
    { apply Rmult_le_pos; [apply pow2_ge_0 |].
      left. apply Rinv_0_lt_compat. nra. }
    nra. }
  split; [exact Hc0 |].
  destruct (get_delays_ends R_ v0 v1 n_delays mode Hn Hmode)
    as (delays & Hd & Hfirst & Hlast).
  exists delays. split; [exact Hd |]. rewrite Hfirst.
  assert (0 < (1 - v0 / v1) * R_) by (apply Rmult_lt_0_compat; assumption).
  destruct Hlast as [Hlast | Hlast]; lra.
Qed.

Lemma get_r_C0_within_schedule_witness :
  0 <= snd (get_r_C0 12 16 1 4 1 2) <= (1 - 1 / 2) * 1
  /\ exists delays,
       get_delays 1 1 2 5 "quadric" = Ok delays
       /\ nth 0 delays 0 <= snd (get_r_C0 12 16 1 4 1 2) <= last delays 0.
Proof.
  apply (get_r_C0_within_schedule 12 16 1 4 1 2 5 "quadric");
    [lra | lra | lia | right; reflexivity].
Defined.

(** ** Two-circle wavefront model *)



(** X15: an inclusion that does not contain the point and lies behind the
    look direction ([cos (phi2 - theta) < 0]) contributes nothing: the
    two-circle model is then the exact homogeneous model of the body,
    whatever the speed [v2 <> 0] of the inclusion ([v1 <> 0]). *)
Theorem wavefront_double_circle_hidden_inclusion
  (x y R1 R2 x2 y2 v0 v1 v2 theta : R) :
  v1 <> 0 -> v2 <> 0 ->
  R2 <= sqrt ((x - x2) ^ 2 + (y - y2) ^ 2) ->
  cos (Np.arctan2 (x - x2) (y - y2) - theta) < 0 ->
  wavefront_double_circle x y R1 R2 x2 y2 v0 v1 v2 theta
  = wavefront_real R1 (sqrt (x ^ 2 + y ^ 2)) (Np.arctan2 x y) v0 v1 theta.
Proof.
  intros _ _ Hout Hback. unfold wavefront_double_circle, wavefront_real.
  destruct (Rlt_dec (sqrt ((x - x2) ^ 2 + (y - y2) ^ 2)) R2) as [H2 | H2]; [lra |].
  assert (Hind : indicator_ge (cos (Np.arctan2 (x - x2) (y - y2) - theta)) 0 = 0).
  { unfold indicator_ge.
    destruct (Rge_dec (cos (Np.arctan2 (x - x2) (y - y2) - theta)) 0); [lra | reflexivity]. }
  destruct (Rlt_dec (sqrt (x ^ 2 + y ^ 2)) R1) as [H1 | H1];
    cbn [fst snd]; rewrite Hind; ring.
Qed.

Lemma wavefront_double_circle_hidden_inclusion_witness :
  wavefront_double_circle 0 0 2 1 0 3 1 2 4 0
  = wavefront_real 2 (sqrt (0 ^ 2 + 0 ^ 2)) (Np.arctan2 0 0) 1 2 0.
Proof.
  assert (Hr : sqrt ((0 - 0) ^ 2 + (0 - 3) ^ 2) = 3).
  { replace ((0 - 0) ^ 2 + (0 - 3) ^ 2) with (3 ^ 2) by ring. apply sqrt_pow2. lra. }
  assert (Hphi : Np.arctan2 (0 - 0) (0 - 3) = PI).
  { unfold Np.arctan2.
    destruct (Rlt_dec 0 (0 - 3)); [lra |].
    destruct (Rlt_dec (0 - 3) 0); [| lra].
    destruct (Rle_dec 0 (0 - 0)); [| lra].
    replace ((0 - 0) / (0 - 3)) with 0 by (field; lra). rewrite atan_0. ring. }
  apply (wavefront_double_circle_hidden_inclusion 0 0 2 1 0 3 1 2 4 0);
    [lra | lra | |].
  - rewrite Hr. lra.
  - rewrite Hphi, Rminus_0_r, cos_PI. lra.
Defined.

(** ** Gaussian window *)

Lemma fromfunction_shape (f : R -> R -> R) (h w : nat) :
  has_shape (Np.fromfunction f h w) h w.
Proof.
  unfold has_shape, Np.fromfunction. split.
  - rewrite length_map, length_seq. reflexivity.
  - apply Forall_forall. intros row Hrow. apply in_map_iff in Hrow as (x & <- & _).
    rewrite length_map, length_seq. reflexivity.
Qed.

Lemma get2_fromfunction (f : R -> R -> R) (h w x y : nat) :
  (x < h)%nat -> (y < w)%nat ->
  Np.get2 (Np.fromfunction f h w) x y = Ok (f (INR x) (INR y)).
Proof.
  intros Hx Hy. unfold Np.get2, Np.get, Np.fromfunction.
  rewrite nth_error_map, nth_error_seq.
  destruct (Nat.ltb_spec x h) as [_ | Hge]; [| lia]. simpl.
  rewrite nth_error_map, nth_error_seq.
  destruct (Nat.ltb_spec y w) as [_ | Hge]; [| lia]. reflexivity.
Qed.

Lemma get2_map2d (g : R -> R) (m : list (list R)) (x y : nat) (v : R) :
  Np.get2 m x y = Ok v -> Np.get2 (map2d g m) x y = Ok (g v).
Proof.
  unfold Np.get2, Np.get, map2d. rewrite nth_error_map.
  destruct (nth_error m x) as [row |]; simpl; [| discriminate].
  rewrite nth_error_map.
  destruct (nth_error row y) as [u |]; simpl; [| discriminate].
  intros Hv. injection Hv as <-. reflexivity.
Qed.

Lemma map2d_shape (g : R -> R) (m : list (list R)) (h w : nat) :
  has_shape m h w -> has_shape (map2d g m) h w.
Proof.
  unfold has_shape, map2d. intros [Hh Hw]. split; [rewrite length_map; exact Hh |].
  rewrite Forall_map. rewrite Forall_forall in *. intros row Hrow.
  rewrite length_map. apply Hw. exact Hrow.
Qed.

Lemma concat_map2d (g : R -> R) (m : list (list R)) :
  concat (map2d g m) = map g (concat m).
Proof.
  unfold map2d. rewrite concat_map. reflexivity.
Qed.

Lemma fromfunction_exp (g : R -> R -> R) (h w : nat) :
  Np.fromfunction (fun x y => exp (g x y)) h w = map2d exp (Np.fromfunction g h w).
Proof.
  unfold Np.fromfunction, map2d. rewrite map_map. apply map_ext. intros x.
  rewrite map_map. reflexivity.
Qed.

Lemma has_shape_count (m : list (list R)) (h w : nat) :
  has_shape m h w -> length (concat m) = (h * w)%nat.
Proof.
  intros [Hh Hw]. subst h. induction m as [| row m IH]; [reflexivity |].
  inversion Hw as [| ? ? Hrow Hrest]; subst. simpl.
  rewrite length_app, IH by exact Hrest. reflexivity.
Qed.

(** X16: for [sigma <> 0], [size >= 1] and [size^2 <= 2800 sigma^2], which
    keeps every exponent above -700 and so every [exp] a positive double,
    the Gaussian window is a [size] by [size] array of strictly positive
    values whose mean is 1. *)
Theorem get_gaussian_window_mean_one (sigma : R) (size : Z) :
  sigma <> 0 -> (1 <= size)%Z -> gaussian_in_range sigma size ->
  exists window,
    get_gaussian_window sigma size = Ok window
    /\ has_shape window (Z.to_nat size) (Z.to_nat size)
    /\ Forall (Forall (fun v => 0 < v)) window
    /\ Np.mean2 window = 1.
Proof.
  intros _ Hsize _. unfold get_gaussian_window.
  destruct (Z.ltb_spec size 0) as [Hneg | _]; [lia |].
  set (n := Z.to_nat size).
  set (g := fun x y : R =>
              - ((x - (IZR size - 1) / 2) ^ 2 + (y - (IZR size - 1) / 2) ^ 2)
              / (2 * sigma ^ 2)).
  change (Np.fromfunction _ n n)
    with (Np.fromfunction (fun x y => exp (g x y)) n n).
  rewrite fromfunction_exp.
  set (kernel := map2d exp (Np.fromfunction g n n)).
  assert (Hshape : has_shape kernel n n).
  { apply map2d_shape, fromfunction_shape. }
  assert (Hcount : length (concat kernel) = (n * n)%nat)
    by (apply has_shape_count; exact Hshape).
  assert (HN : 0 < INR (n * n)) by (apply lt_0_INR; unfold n; nia).
  assert (HS : 0 < Np.sum2 kernel).
  { rewrite <- sum_concat. unfold kernel. rewrite concat_map2d.
    apply sum_exp_pos. intros Hnil.
    apply (f_equal (@length R)) in Hnil.
    rewrite (has_shape_count _ n n (fromfunction_shape g n n)) in Hnil.
    simpl in Hnil. unfold n in Hnil. nia. }
  assert (Hmean : 0 < Np.mean2 kernel).
  { unfold Np.mean2. rewrite Hcount. apply Rdiv_lt_0_compat; assumption. }
  eexists. split; [reflexivity |]. split; [apply map2d_shape; exact Hshape |].
  split.
  - unfold kernel at 2. unfold map2d. rewrite map_map.
    apply Forall_map, Forall_forall. intros row _. rewrite map_map.
    apply Forall_map, Forall_forall. intros u _.
    apply Rdiv_lt_0_compat; [apply exp_pos | exact Hmean].
  - unfold Np.mean2 at 1. rewrite <- sum_concat, concat_map2d, length_map, Hcount.
    rewrite (sum_map_scale _ (/ Np.mean2 kernel)) by reflexivity.
    rewrite sum_concat. unfold Np.mean2. rewrite Hcount. field. split; lra.
Qed.

Lemma get_gaussian_window_mean_one_witness :
  gaussian_in_range 2 3
  /\ exists window,
       get_gaussian_window 2 3 = Ok window
       /\ has_shape window 3 3
       /\ Forall (Forall (fun v => 0 < v)) window
       /\ Np.mean2 window = 1.
Proof.
  assert (Hrange : gaussian_in_range 2 3) by (unfold gaussian_in_range; lra).
  split; [exact Hrange |].
  apply (get_gaussian_window_mean_one 2 3); [lra | lia | exact Hrange].
Defined.

(** X17: for [sigma <> 0] and [size >= 1] the Gaussian window is
    symmetric: the value at [(x, y)] is also the value at [(y, x)] and at
    the point [(size - 1 - x, size - 1 - y)] opposite to it. *)
Theorem get_gaussian_window_symmetric (sigma : R) (size : Z) (x y : nat) :
  sigma <> 0 -> (Z.of_nat x < size)%Z -> (Z.of_nat y < size)%Z ->
  exists window v,
    get_gaussian_window sigma size = Ok window
    /\ Np.get2 window x y = Ok v
    /\ Np.get2 window y x = Ok v
    /\ Np.get2 window (Z.to_nat size - 1 - x) (Z.to_nat size - 1 - y) = Ok v.
Proof.
  intros Hsigma Hx Hy. unfold get_gaussian_window.
  destruct (Z.ltb_spec size 0) as [Hneg | _]; [lia |].
  set (n := Z.to_nat size).
  assert (Hsize : IZR size = INR n).
  { unfold n. rewrite INR_IZR_INZ, Z2Nat.id by lia. reflexivity. }
  rewrite Hsize.
  set (f := fun x0 y0 : R =>
              exp (- ((x0 - (INR n - 1) / 2) ^ 2 + (y0 - (INR n - 1) / 2) ^ 2)
                   / (2 * sigma ^ 2))).
  set (kernel := Np.fromfunction f n n).
  assert (Hxn : (x < n)%nat) by (unfold n; lia).
  assert (Hyn : (y < n)%nat) by (unfold n; lia).
  eexists. exists (f (INR x) (INR y) / Np.mean2 kernel).
  split; [reflexivity |]. split; [| split].
  - apply (get2_map2d (fun k => k / Np.mean2 kernel) kernel x y (f (INR x) (INR y))).
    apply get2_fromfunction; assumption.
  - replace (f (INR x) (INR y)) with (f (INR y) (INR x)).
    + apply (get2_map2d (fun k => k / Np.mean2 kernel) kernel y x (f (INR y) (INR x))).
      apply get2_fromfunction; assumption.
    + unfold f. f_equal. field. exact Hsigma.
  - replace (f (INR x) (INR y))
      with (f (INR (n - 1 - x)) (INR (n - 1 - y))).
    + apply (get2_map2d (fun k => k / Np.mean2 kernel) kernel _ _
               (f (INR (n - 1 - x)) (INR (n - 1 - y)))).
      apply get2_fromfunction; lia.
    + unfold f. f_equal.
      rewrite !minus_INR by lia. simpl. field. exact Hsigma.
Qed.

Lemma get_gaussian_window_symmetric_witness :
  exists window v,
    get_gaussian_window 2 3 = Ok window
    /\ Np.get2 window 0 1 = Ok v
    /\ Np.get2 window 1 0 = Ok v
    /\ Np.get2 window (Z.to_nat 3 - 1 - 0) (Z.to_nat 3 - 1 - 1) = Ok v.
Proof.
  apply (get_gaussian_window_symmetric 2 3 0 1); [lra | lia | lia].
Defined.

(** ** Delay-and-sum: the ring, and the pixels of a call that returns *)

Lemma nth_transducer (R_ring : R) (pa_signal : list (list R)) (k : nat) :
  (k < length pa_signal)%nat ->
  nth k (x_transducer R_ring pa_signal) 0
  = R_ring * sin (2 * PI / INR (length pa_signal) * (INR k + 1) - PI)
  /\ nth k (y_transducer R_ring pa_signal) 0
     = R_ring * cos (2 * PI / INR (length pa_signal) * (INR k + 1) - PI).
Proof.
  intros Hk. unfold x_transducer, y_transducer, angle_transducer, delta_angle,
    N_transducer.
  rewrite !map_map. split; rewrite nth_map_seq by exact Hk; reflexivity.
Qed.

Lemma transducer_norm (R_ring : R) (pa_signal : list (list R)) (k : nat) :
  (k < length pa_signal)%nat ->
  nth k (x_transducer R_ring pa_signal) 0 ^ 2
  + nth k (y_transducer R_ring pa_signal) 0 ^ 2 = R_ring ^ 2.
Proof.
  intros Hk.
  destruct (nth_transducer R_ring pa_signal k Hk) as [-> ->].
  pose proof (sin_cos_sq (2 * PI / INR (length pa_signal) * (INR k + 1) - PI)).
  nra.
Qed.

(** X18: the transducers lie on the circle of radius [|R_ring|] about the
    origin, and the last of them, at angle [2 pi], is at [(0, - R_ring)]. *)
Theorem transducers_on_ring (R_ring : R) (pa_signal : list (list R)) :
  pa_signal <> [] ->
  length (x_transducer R_ring pa_signal) = length pa_signal
  /\ length (y_transducer R_ring pa_signal) = length pa_signal
  /\ (forall k, (k < length pa_signal)%nat ->
        nth k (x_transducer R_ring pa_signal) 0 ^ 2
        + nth k (y_transducer R_ring pa_signal) 0 ^ 2 = R_ring ^ 2)
  /\ nth (length pa_signal - 1) (x_transducer R_ring pa_signal) 0 = 0
  /\ nth (length pa_signal - 1) (y_transducer R_ring pa_signal) 0 = - R_ring.
Proof.
  intros Hne.
  assert (HN : (0 < length pa_signal)%nat)
    by (destruct pa_signal; [congruence | simpl; lia]).
  split; [| split; [| split]].
  - unfold x_transducer, angle_transducer, N_transducer.
    rewrite !length_map, length_seq. reflexivity.
  - unfold y_transducer, angle_transducer, N_transducer.
    rewrite !length_map, length_seq. reflexivity.
  - intros k Hk. apply transducer_norm. exact Hk.
  - destruct (nth_transducer R_ring pa_signal (length pa_signal - 1)) as [-> ->];
      [lia |].
    assert (Hang : 2 * PI / INR (length pa_signal)
                   * (INR (length pa_signal - 1) + 1) - PI = PI).
    { rewrite minus_INR by lia. simpl.
      assert (INR (length pa_signal) <> 0) by (apply not_0_INR; lia).
      field. assumption. }
    rewrite Hang, sin_PI, cos_PI. split; ring.
Qed.

Lemma transducers_on_ring_witness :
  nth 0 (x_transducer 3 [[1]; [2]]) 0 ^ 2 + nth 0 (y_transducer 3 [[1]; [2]]) 0 ^ 2
  = 3 ^ 2
  /\ nth 1 (x_transducer 3 [[1]; [2]]) 0 = 0
  /\ nth 1 (y_transducer 3 [[1]; [2]]) 0 = - 3.
Proof.
  destruct (transducers_on_ring 3 [[1]; [2]]) as (_ & _ & Hring & Hx & Hy);
    [discriminate |].
  split; [apply Hring; simpl; lia | split; assumption].
Defined.

Lemma combine_map_same {A B C : Type} (f : A -> B) (g : A -> C) (l : list A) :
  combine (map f l) (map g l) = map (fun a => (f a, g a)) l.
Proof.
  induction l as [| a l IH]; [reflexivity |]. simpl. rewrite IH. reflexivity.
Qed.

Lemma distance_scalar (R_ring : R) (pa_signal : list (list R))
  (x_vec y_vec : list R) (d_delay e : R) (s t : nat) :
  distance_to_transducer R_ring pa_signal x_vec y_vec d_delay (Scalar e) s t
  = Ok (map (path_length R_ring pa_signal x_vec y_vec d_delay e s t)
            (seq 0 (length pa_signal))).
Proof.
  unfold distance_to_transducer, add_ring_error. f_equal.
  rewrite map_map.
  transitivity
    (map (fun k =>
            sqrt ((fst (nth k (x_transducer R_ring pa_signal) 0,
                        nth k (y_transducer R_ring pa_signal) 0)
                   - nth s x_vec 0) ^ 2
                  + (snd (nth k (x_transducer R_ring pa_signal) 0,
                          nth k (y_transducer R_ring pa_signal) 0)
                     - nth t y_vec 0) ^ 2) - d_delay + e)
         (seq 0 (length pa_signal))); [| reflexivity].
  rewrite <- (map_map (fun k => (nth k (x_transducer R_ring pa_signal) 0,
                                 nth k (y_transducer R_ring pa_signal) 0))
                      (fun p => sqrt ((fst p - nth s x_vec 0) ^ 2
                                      + (snd p - nth t y_vec 0) ^ 2)
                                - d_delay + e)).
  f_equal.
  unfold x_transducer, y_transducer, angle_transducer, N_transducer.
  rewrite !map_map, combine_map_same.
  apply map_ext_in. intros k Hk. apply in_seq in Hk.
  rewrite !nth_map_seq by lia. reflexivity.
Qed.

Lemma mapM_Ok_map {A B : Type} (f : A -> result B) (g : A -> B) (l : list A) :
  (forall x, In x l -> f x = Ok (g x)) -> mapM f l = Ok (map g l).
Proof.
  induction l as [| x l IH]; intros Hf; [reflexivity |]. simpl.
  rewrite Hf by (left; reflexivity). simpl.
  rewrite IH by (intros y Hy; apply Hf; right; exact Hy). reflexivity.
Qed.

(** A pixel of a well-formed call with a scalar ring error, when no sample
    index is [num_samples]: the mean of the contributions. *)
Lemma pixel_scalar (R_ring T_sample v0 : R) (pa_signal : list (list R))
  (x_vec y_vec : list R) (d_delay e : R) (s t n : nat) :
  has_shape pa_signal (length pa_signal) n ->
  v0 * T_sample <> 0 ->
  (forall k, (k < length pa_signal)%nat ->
     (0 < Z.of_nat n)%Z ->
     Zfloor (path_length R_ring pa_signal x_vec y_vec d_delay e s t k
             / (v0 * T_sample)) <> Z.of_nat n) ->
  pixel R_ring T_sample v0 pa_signal x_vec y_vec d_delay (Scalar e) s t
  = Ok (Np.mean
          (map (fun k =>
                  contribution T_sample v0 pa_signal k
                    (path_length R_ring pa_signal x_vec y_vec d_delay e s t k))
               (seq 0 (length pa_signal)))).
Proof.
  intros Hshape Hne Hid. unfold pixel. rewrite distance_scalar. cbn [bind].
  unfold N_transducer.
  rewrite (mapM_Ok_map _
             (fun k => contribution T_sample v0 pa_signal k
                         (path_length R_ring pa_signal x_vec y_vec d_delay e s t k))).
  { reflexivity. }
  intros k Hk. apply in_seq in Hk.
  assert (Hkn : (k < length pa_signal)%nat) by lia.
  assert (Hd : nth_error
                 (map (path_length R_ring pa_signal x_vec y_vec d_delay e s t)
                      (seq 0 (length pa_signal))) k
               = Some (path_length R_ring pa_signal x_vec y_vec d_delay e s t k)).
  { rewrite nth_error_map, nth_error_seq.
    destruct (Nat.ltb_spec k (length pa_signal)); [reflexivity | lia]. }
  assert (Hn : Np.shape1 pa_signal = n).
  { destruct Hshape as [_ Hrows]. unfold Np.shape1.
    destruct pa_signal as [| row m]; [simpl in Hkn; lia |].
    inversion Hrows; subst. reflexivity. }
  rewrite (related_cases T_sample v0 pa_signal _ k _
             (Zfloor (path_length R_ring pa_signal x_vec y_vec d_delay e s t k
                      / (v0 * T_sample))) n Hshape Hkn Hd).
  - unfold contribution. rewrite Hn.
    destruct ((_ <=? 0)%Z || (Z.of_nat n <? _)%Z) eqn:Hout; [reflexivity |].
    apply orb_false_iff in Hout as [Hpos Hout].
    apply Z.ltb_ge in Hout. apply Z.leb_gt in Hpos.
    specialize (Hid k Hkn ltac:(lia)).
    destruct (Z.ltb_spec
                (Zfloor (path_length R_ring pa_signal x_vec y_vec d_delay e s t k
                         / (v0 * T_sample))) (Z.of_nat n)); [reflexivity | lia].
  - unfold sample_index.
    destruct (Req_dec_T (v0 * T_sample) 0); [contradiction | reflexivity].
Qed.




(** X20: a pixel all of whose sample indices fall outside the recorded
    window (at or before index 0, or after [num_samples]) is 0. *)
Theorem pixel_out_of_window (R_ring T_sample v0 : R) (pa_signal : list (list R))
  (x_vec y_vec : list R) (d_delay e : R) (s t n : nat) :
  has_shape pa_signal (length pa_signal) n ->
  v0 * T_sample <> 0 ->
  (forall k, (k < length pa_signal)%nat ->
     (Zfloor (path_length R_ring pa_signal x_vec y_vec d_delay e s t k
              / (v0 * T_sample)) <= 0)%Z
     \/ (Z.of_nat n
         < Zfloor (path_length R_ring pa_signal x_vec y_vec d_delay e s t k
                   / (v0 * T_sample)))%Z) ->
  pixel R_ring T_sample v0 pa_signal x_vec y_vec d_delay (Scalar e) s t = Ok 0.
Proof.
  intros Hshape Hv Hout.
  rewrite (pixel_scalar _ _ _ _ _ _ _ _ _ _ n Hshape Hv).
  - f_equal. unfold Np.mean. rewrite sum_zeros; [unfold Rdiv; ring |].
    apply Forall_map, Forall_forall. intros k Hk. apply in_seq in Hk.
    assert (Hn : Np.shape1 pa_signal = n).
    { destruct Hshape as [_ Hrows]. unfold Np.shape1.
      destruct pa_signal as [| row m]; [simpl in Hk; lia |].
      inversion Hrows; subst. reflexivity. }
    unfold contribution. rewrite Hn.
    destruct (Hout k ltac:(lia)) as [H0 | Hn'].
    + destruct (Z.leb_spec
                  (Zfloor (path_length R_ring pa_signal x_vec y_vec d_delay e s t k
                           / (v0 * T_sample))) 0); [reflexivity | lia].
    + destruct (Z.ltb_spec (Z.of_nat n)
                  (Zfloor (path_length R_ring pa_signal x_vec y_vec d_delay e s t k
                           / (v0 * T_sample)))); [| lia].
      rewrite orb_true_r. reflexivity.
  - intros k Hk Hn. destruct (Hout k Hk); lia.
Qed.

Lemma pixel_out_of_window_witness :
  pixel 1 1 1 [[5; 7]] [0] [0] 4 (Scalar 0) 0 0 = Ok 0.
Proof.
  apply (pixel_out_of_window 1 1 1 [[5; 7]] [0] [0] 4 0 0 0 2).
  - split; [reflexivity | repeat constructor].
  - lra.
  - intros k Hk. left. simpl in Hk. assert (k = 0%nat) by lia. subst k.
    unfold path_length. rewrite x_transducer_single, y_transducer_single.
    cbn [nth]. rewrite distance_on_axis by lra.
    match goal with
    | |- (Zfloor ?q <= 0)%Z => assert (Hf : Zfloor q = (-3)%Z)
    end.
    { apply Zfloor_eq. simpl. lra. }
    rewrite Hf. lia.
Defined.

Lemma foldM_seq_total {S : Type} (P : S -> Prop) (body : S -> nat -> result S) :
  forall n a acc,
    P acc ->
    (forall i acc0, (a <= i < a + n)%nat -> P acc0 ->
       exists acc', body acc0 i = Ok acc' /\ P acc') ->
    exists r, foldM body (seq a n) acc = Ok r /\ P r.
Proof.
  induction n as [| n IH]; intros a acc Hacc Hbody; simpl.
  - exists acc. split; [reflexivity | exact Hacc].
  - destruct (Hbody a acc ltac:(lia) Hacc) as (acc' & Hx & Hacc').
    rewrite Hx. cbn [bind]. apply IH; [exact Hacc' |].
    intros i acc0 Hi. apply Hbody. lia.
Qed.

Lemma set_total {A : Type} (l : list A) (v : A) :
  forall i, (i < length l)%nat -> exists l', Np.set l i v = Ok l'.
Proof.
  induction l as [| x l IH]; intros i Hi; [simpl in Hi; lia |].
  destruct i as [| i]; simpl; [eexists; reflexivity |].
  destruct (IH i) as (l' & ->); [simpl in Hi; lia |]. eexists. reflexivity.
Qed.

Lemma set2_total (m : list (list R)) (h w i j : nat) (v : R) :
  has_shape m h w -> (i < h)%nat -> (j < w)%nat ->
  exists m', Np.set2 m i j v = Ok m'.
Proof.
  intros [Hh Hw] Hi Hj. unfold Np.set2.
  rewrite (get_nth m i []) by lia. cbn [bind].
  assert (Hrow : length (nth i m []) = w).
  { rewrite Forall_forall in Hw. apply Hw, nth_In. lia. }
  destruct (set_total (nth i m []) v j) as (row' & ->); [lia |]. cbn [bind].
  apply set_total. lia.
Qed.

(** Two transducers sit at the angles [pi] and [2 pi], that is at
    [(0, R_ring)] and [(0, - R_ring)]. *)
Lemma x_transducer_pair (R_ring : R) (r0 r1 : list R) :
  x_transducer R_ring [r0; r1] = [0; 0].
Proof.
  unfold x_transducer, angle_transducer, delta_angle, N_transducer.
  cbn [length seq map].
  assert (H0 : 2 * PI / INR 2 * (INR 0 + 1) - PI = 0) by (simpl; field).
  assert (H1 : 2 * PI / INR 2 * (INR 1 + 1) - PI = PI) by (simpl; field).
  rewrite H0, H1, sin_0, sin_PI. f_equal; [ring | f_equal; ring].
Qed.

Lemma y_transducer_pair (R_ring : R) (r0 r1 : list R) :
  y_transducer R_ring [r0; r1] = [R_ring; - R_ring].
Proof.
  unfold y_transducer, angle_transducer, delta_angle, N_transducer.
  cbn [length seq map].
  assert (H0 : 2 * PI / INR 2 * (INR 0 + 1) - PI = 0) by (simpl; field).
  assert (H1 : 2 * PI / INR 2 * (INR 1 + 1) - PI = PI) by (simpl; field).
  rewrite H0, H1, cos_0, cos_PI. f_equal; [ring | f_equal; ring].
Qed.

Lemma path_length_pair (R_ring : R) (r0 r1 x_vec y_vec : list R)
  (d_delay e : R) (s t : nat) :
  path_length R_ring [r0; r1] x_vec y_vec d_delay e s t 0
  = sqrt ((0 - nth s x_vec 0) ^ 2 + (R_ring - nth t y_vec 0) ^ 2) - d_delay + e
  /\ path_length R_ring [r0; r1] x_vec y_vec d_delay e s t 1
     = sqrt ((0 - nth s x_vec 0) ^ 2 + (- R_ring - nth t y_vec 0) ^ 2)
       - d_delay + e.
Proof.
  unfold path_length. rewrite x_transducer_pair, y_transducer_pair.
  split; reflexivity.
Qed.

(** The sample index of a path of squared length [A], without delay or
    ring error and with unit speed and sampling interval. *)
Lemma sample_of_sq_length (A : R) (z : Z) :
  0 <= IZR z -> IZR z ^ 2 <= A < (IZR z + 1) ^ 2 ->
  Zfloor ((sqrt A - 0 + 0) / (1 * 1)) = z.
Proof.
  intros Hz [Hlo Hhi]. apply Zfloor_eq.
  replace ((sqrt A - 0 + 0) / (1 * 1)) with (sqrt A) by field.
  split.
  - apply sqrt_ge_of_sq; assumption.
  - rewrite <- (sqrt_pow2 (IZR z + 1)) by lra.
    apply sqrt_lt_1_alt. split; [| exact Hhi].
    apply Rle_trans with (IZR z ^ 2); [apply pow2_ge_0 | exact Hlo].
Qed.

(** X21: on a square grid, with a well-formed sinogram of at least one
    transducer, [v0 * T_sample <> 0] and a scalar ring error, a call in
    which no sample index equals [num_samples] returns an image; its cell
    [[t, s]] is the mean of the contributions of the transducers at the
    grid point [(x_vec[s], y_vec[t])]. *)
Theorem delay_and_sum_returns_on_square_grid
  (R_ring T_sample v0 : R) (pa_signal : list (list R)) (x_vec y_vec : list R)
  (d_delay e : R) (n : nat) :
  pa_signal <> [] ->
  has_shape pa_signal (length pa_signal) n ->
  v0 * T_sample <> 0 ->
  length x_vec = length y_vec ->
  (forall s t k, (s < length x_vec)%nat -> (t < length y_vec)%nat ->
     (k < length pa_signal)%nat ->
     Zfloor (path_length R_ring pa_signal x_vec y_vec d_delay e s t k
             / (v0 * T_sample)) <> Z.of_nat n) ->
  exists Image,
    delay_and_sum R_ring T_sample v0 pa_signal x_vec y_vec d_delay (Scalar e)
    = Ok Image
    /\ has_shape Image (length y_vec) (length x_vec)
    /\ forall s t, (s < length x_vec)%nat -> (t < length y_vec)%nat ->
         Np.get2 Image t s
         = Ok (Np.mean
                 (map (fun k =>
                         contribution T_sample v0 pa_signal k
                           (path_length R_ring pa_signal x_vec y_vec d_delay e s t k))
                      (seq 0 (length pa_signal)))).
Proof.
  intros Hne Hshape Hv Hsq Hid.
  assert (Hpix : forall s t, (s < length x_vec)%nat -> (t < length y_vec)%nat ->
            pixel R_ring T_sample v0 pa_signal x_vec y_vec d_delay (Scalar e) s t
            = Ok (Np.mean
                    (map (fun k =>
                            contribution T_sample v0 pa_signal k
                              (path_length R_ring pa_signal x_vec y_vec d_delay e s t k))
                         (seq 0 (length pa_signal))))).
  { intros s t Hs Ht. apply (pixel_scalar _ _ _ _ _ _ _ _ _ _ n Hshape Hv).
    intros k Hk _. apply Hid; assumption. }
  assert (Hret : exists Image,
            delay_and_sum R_ring T_sample v0 pa_signal x_vec y_vec d_delay (Scalar e)
            = Ok Image).
  { unfold delay_and_sum.
    destruct (Nat.eqb_spec (N_transducer pa_signal) 0) as [H0 | _].
    { unfold N_transducer in H0. destruct pa_signal; [congruence | discriminate]. }
    destruct (foldM_seq_total
                (fun m => has_shape m (length x_vec) (length y_vec))
                (fun Image s =>
                   foldM (fun Image0 t =>
                            v <- pixel R_ring T_sample v0 pa_signal x_vec y_vec
                                   d_delay (Scalar e) s t ;;
                            Np.set2 Image0 t s v)
                         (seq 0 (length y_vec)) Image)
                (length x_vec) 0%nat
                (Np.zeros2 (length x_vec) (length y_vec)))
      as (Image & HI & _).
    - apply zeros2_shape.
    - intros s acc Hs Hacc.
      apply (foldM_seq_total
               (fun m => has_shape m (length x_vec) (length y_vec))); [exact Hacc |].
      intros t acc0 Ht Hacc0. rewrite Hpix by lia. cbn [bind].
      destruct (set2_total acc0 _ _ t s
                  (Np.mean
                     (map (fun k =>
                             contribution T_sample v0 pa_signal k
                               (path_length R_ring pa_signal x_vec y_vec d_delay e s t k))
                          (seq 0 (length pa_signal)))) Hacc0)
        as (m' & Hm'); [lia | lia |].
      exists m'. split; [exact Hm' |].
      apply (set2_Ok _ _ _ _ _ Hm'). exact Hacc0.
    - exists Image. exact HI. }
  destruct Hret as (Image & HI). exists Image. split; [exact HI |].
  destruct (delay_and_sum_cells _ _ _ _ _ _ _ _ _ HI) as [Hsh Hcells].
  split; [rewrite <- Hsq; rewrite <- Hsq in Hsh; exact Hsh |].
  intros s t Hs Ht.
  destruct (Hcells s t Hs Ht) as (_ & _ & v & Hv' & Hget).
  rewrite Hpix in Hv' by assumption. rewrite Hget. symmetry. exact Hv'.
Qed.

Lemma delay_and_sum_returns_on_square_grid_witness :
  exists Image,
    delay_and_sum 4 1 1
      [[10; 11; 12; 13; 14; 15; 16]; [20; 22; 24; 26; 28; 30; 32]]
      [1 / 2; 3 / 2] [1 / 2; 3 / 2] 0 (Scalar 0) = Ok Image
    /\ has_shape Image 2 2
    /\ Np.get2 Image 1 0 = Ok (Np.mean [12; 30])
    /\ Np.get2 Image 0 1 = Ok (Np.mean [13; 28]).
Proof.
  set (pa := [[10; 11; 12; 13; 14; 15; 16]; [20; 22; 24; 26; 28; 30; 32]]).
  set (grid := [1 / 2; 3 / 2]).
  assert (Hfloor : forall s t k, (s < 2)%nat -> (t < 2)%nat -> (k < 2)%nat ->
            Zfloor (path_length 4 pa grid grid 0 0 s t k / (1 * 1))
            = nth k (nth t [[3%Z; 4%Z]; [2%Z; 5%Z]] []) 0%Z).
  { intros s t k Hs Ht Hk.
    destruct (path_length_pair 4 [10; 11; 12; 13; 14; 15; 16]
                [20; 22; 24; 26; 28; 30; 32] grid grid 0 0 s t) as [Hp0 Hp1].
    fold pa in Hp0, Hp1.
    destruct s as [| [| s]]; [| | lia];
      (destruct t as [| [| t]]; [| | lia]);
      (destruct k as [| [| k]]; [| | lia]);
      (rewrite Hp0 || rewrite Hp1); unfold grid; cbn [nth];
      apply sample_of_sq_length; lra. }
  destruct (delay_and_sum_returns_on_square_grid 4 1 1 pa grid grid 0 0 7)
    as (Image & HI & Hshape & Hcells).
  - discriminate.
  - split; [reflexivity | repeat constructor].
  - lra.
  - reflexivity.
  - intros s t k Hs Ht Hk. rewrite Hfloor by assumption.
    destruct t as [| [| t]]; [| | simpl in Ht; lia];
      (destruct k as [| [| k]]; [| | simpl in Hk; lia]); discriminate.
  - exists Image. split; [exact HI |]. split; [exact Hshape |].
    split.
    + rewrite (Hcells 0%nat 1%nat) by (simpl; lia).
      unfold contribution. cbv zeta. cbn [length pa seq map].
      rewrite !Hfloor by lia. reflexivity.
    + rewrite (Hcells 1%nat 0%nat) by (simpl; lia).
      unfold contribution. cbv zeta. cbn [length pa seq map].
      rewrite !Hfloor by lia. reflexivity.
Defined.

(** ** Tensor utilities: padding and cropping *)

Lemma shape1_of_has_shape (m : list (list R)) (h w : nat) :
  has_shape m h w -> (0 < h)%nat -> Np.shape1 m = w.
Proof.
  intros [Hh Hw] Hpos. unfold Np.shape1.
  destruct m as [| row m]; [simpl in Hh; lia |].
  inversion Hw; subst. reflexivity.
Qed.

Lemma slice_middle {A : Type} (l1 l2 l3 : list A) :
  Torch.slice (length l1) (length l1 + length l2) (l1 ++ l2 ++ l3) = l2.
Proof.
  unfold Torch.slice.
  replace (length l1 + length l2 - length l1)%nat with (length l2) by lia.
  rewrite skipn_app, skipn_all, Nat.sub_diag. simpl.
  rewrite firstn_app, firstn_all, Nat.sub_diag. simpl. apply app_nil_r.
Qed.

Lemma pad_double_shape (img : list (list R)) (H W : nat) :
  has_shape img H W ->
  has_shape (pad_double img) (H + 2 * (H / 2)) (W + 2 * (W / 2)).
Proof.
  intros Hshape. destruct (Nat.eq_dec H 0) as [-> | HH].
  - destruct Hshape as [Hlen _]. apply length_zero_iff_nil in Hlen. subst img.
    split; [reflexivity | constructor].
  - assert (HW : Np.shape1 img = W) by (apply (shape1_of_has_shape img H W); [exact Hshape | lia]).
    destruct Hshape as [Hlen Hrows].
    unfold pad_double, Torch.pad. rewrite HW, Hlen. split.
    + rewrite !length_app, !repeat_length, length_map. lia.
    + rewrite !Forall_app. split; [| split].
      * apply Forall_forall. intros row Hrow. apply repeat_spec in Hrow as ->.
        unfold Np.zeros. rewrite repeat_length. lia.
      * apply Forall_map. rewrite Forall_forall in *. intros row Hrow.
        rewrite !length_app. unfold Np.zeros. rewrite !repeat_length.
        rewrite (Hrows row Hrow). lia.
      * apply Forall_forall. intros row Hrow. apply repeat_spec in Hrow as ->.
        unfold Np.zeros. rewrite repeat_length. lia.
Qed.

(** X22: [pad_double] turns an [H] by [W] matrix into one of
    [H + 2 (H // 2)] by [W + 2 (W // 2)], that is twice the size when [H]
    and [W] are even; the matrix sits in it from row [H // 2] and column
    [W // 2], and the [H // 2] rows above it are zero. *)
Theorem pad_double_layout (img : list (list R)) (H W : nat) :
  has_shape img H W ->
  has_shape (pad_double img) (H + 2 * (H / 2)) (W + 2 * (W / 2))
  /\ (Nat.Even H -> Nat.Even W -> has_shape (pad_double img) (2 * H) (2 * W))
  /\ (forall i j v, Np.get2 img i j = Ok v ->
        Np.get2 (pad_double img) (H / 2 + i) (W / 2 + j) = Ok v)
  /\ (forall i j, (i < H / 2)%nat -> (j < W + 2 * (W / 2))%nat ->
        Np.get2 (pad_double img) i j = Ok 0).
Proof.
  intros Hshape. pose proof (pad_double_shape img H W Hshape) as Hpad.
  split; [exact Hpad |]. split; [| split].
  - intros [a ->] [b ->].
    replace (2 * a + 2 * (2 * a / 2))%nat with (2 * (2 * a))%nat in Hpad
      by (rewrite (Nat.mul_comm 2 a), Nat.div_mul by lia; lia).
    replace (2 * b + 2 * (2 * b / 2))%nat with (2 * (2 * b))%nat in Hpad
      by (rewrite (Nat.mul_comm 2 b), Nat.div_mul by lia; lia).
    exact Hpad.
  - intros i j v Hget. unfold Np.get2 in Hget.
    apply bind_Ok_inv in Hget as (row & Hrow & Hv).
    pose proof (get_Ok_lt _ _ _ Hrow) as Hi.
    assert (HH : (0 < H)%nat) by (destruct Hshape as [<- _]; lia).
    pose proof (shape1_of_has_shape img H W Hshape HH) as HW.
    destruct Hshape as [Hlen Hrows].
    unfold pad_double, Torch.pad. rewrite HW, Hlen.
    unfold Np.get2, Np.get at 1.
    rewrite nth_error_app2 by (rewrite repeat_length; lia).
    rewrite repeat_length.
    replace (H / 2 + i - H / 2)%nat with i by lia.
    rewrite nth_error_app1 by (rewrite length_map; exact Hi).
    rewrite nth_error_map.
    unfold Np.get in Hrow. destruct (nth_error img i) as [row' |]; [| discriminate].
    injection Hrow as ->. cbn [option_map bind].
    unfold Np.get in *.
    rewrite nth_error_app2 by (unfold Np.zeros; rewrite repeat_length; lia).
    unfold Np.zeros. rewrite repeat_length.
    replace (W / 2 + j - W / 2)%nat with j by lia.
    destruct (nth_error row j) as [u |] eqn:Hu; [| discriminate].
    rewrite nth_error_app1 by (apply nth_error_Some; congruence).
    rewrite Hu. exact Hv.
  - intros i j Hi Hj.
    assert (HH : (0 < H)%nat).
    { destruct (Nat.eq_dec H 0) as [-> | ]; [simpl in Hi; lia | lia]. }
    pose proof (shape1_of_has_shape img H W Hshape HH) as HW.
    unfold pad_double, Torch.pad. rewrite HW.
    destruct Hshape as [Hlen _]. rewrite Hlen.
    unfold Np.get2, Np.get at 1.
    rewrite nth_error_app1 by (rewrite repeat_length; exact Hi).
    rewrite nth_error_repeat by exact Hi. cbn [bind].
    unfold Np.get, Np.zeros. rewrite nth_error_repeat by lia. reflexivity.
Qed.

Lemma pad_double_layout_witness :
  has_shape (pad_double [[1; 2]; [3; 4]]) (2 * 2) (2 * 2)
  /\ Np.get2 (pad_double [[1; 2]; [3; 4]]) (2 / 2 + 1) (2 / 2 + 0) = Ok 3.
Proof.
  destruct (pad_double_layout [[1; 2]; [3; 4]] 2 2) as (_ & Heven & Hmid & _).
  - split; [reflexivity | repeat constructor].
  - split.
    + apply Heven; exists 1%nat; reflexivity.
    + apply Hmid. reflexivity.
Defined.

(** X23: on a matrix with an even number of rows and of columns,
    [crop_half] undoes [pad_double]; the sizes have to be even, a 1 by 1
    matrix comes back empty. *)
Theorem crop_half_pad_double (img : list (list R)) (H W : nat) :
  has_shape img H W -> Nat.Even H -> Nat.Even W ->
  crop_half (pad_double img) = img
  /\ forall v, crop_half (pad_double [[v]]) = [].
Proof.
  intros Hshape [a Ha] [b Hb]. split; [| reflexivity].
  destruct (Nat.eq_dec H 0) as [H0 | HH].
  - destruct Hshape as [Hlen _]. rewrite H0 in Hlen.
    apply length_zero_iff_nil in Hlen. subst img. reflexivity.
  - pose proof (pad_double_shape img H W Hshape) as Hpad.
    assert (Hh2 : (H / 2 = a)%nat)
      by (rewrite Ha, (Nat.mul_comm 2 a), Nat.div_mul by lia; reflexivity).
    assert (Hw2 : (W / 2 = b)%nat)
      by (rewrite Hb, (Nat.mul_comm 2 b), Nat.div_mul by lia; reflexivity).
    rewrite Hh2, Hw2 in Hpad.
    assert (HW' : Np.shape1 (pad_double img) = (W + 2 * b)%nat)
      by (apply (shape1_of_has_shape _ (H + 2 * a)); [exact Hpad | lia]).
    unfold crop_half. rewrite HW'. destruct Hpad as [Hlen' _]. rewrite Hlen'.
    assert (Hq1 : ((H + 2 * a) / 4 = a)%nat).
    { replace (H + 2 * a)%nat with (a * 4)%nat by lia. apply Nat.div_mul. lia. }
    assert (Hq3 : (3 * (H + 2 * a) / 4 = a + H)%nat).
    { replace (3 * (H + 2 * a))%nat with ((a + H) * 4)%nat by lia.
      apply Nat.div_mul. lia. }
    assert (Hp1 : ((W + 2 * b) / 4 = b)%nat).
    { replace (W + 2 * b)%nat with (b * 4)%nat by lia. apply Nat.div_mul. lia. }
    assert (Hp3 : (3 * (W + 2 * b) / 4 = b + W)%nat).
    { replace (3 * (W + 2 * b))%nat with ((b + W) * 4)%nat by lia.
      apply Nat.div_mul. lia. }
    rewrite Hq1, Hq3, Hp1, Hp3.
    pose proof (shape1_of_has_shape img H W Hshape ltac:(lia)) as HW.
    destruct Hshape as [Hlen Hrows].
    unfold pad_double, Torch.pad. rewrite HW, Hlen, Hh2, Hw2.
    pose proof (slice_middle
                  (repeat (Np.zeros (b + W + b)) a)
                  (map (fun row => Np.zeros b ++ row ++ Np.zeros b) img)
                  (repeat (Np.zeros (b + W + b)) a)) as Hrowsl.
    rewrite repeat_length, length_map, Hlen in Hrowsl. rewrite Hrowsl.
    rewrite map_map. rewrite <- (map_id img) at 2.
    apply map_ext_in. intros row Hrow.
    rewrite Forall_forall in Hrows. specialize (Hrows row Hrow).
    pose proof (slice_middle (Np.zeros b) row (Np.zeros b)) as Hcol.
    unfold Np.zeros in Hcol at 1 2. rewrite repeat_length, Hrows in Hcol.
    exact Hcol.
Qed.

Lemma crop_half_pad_double_witness :
  crop_half (pad_double [[1; 2]; [3; 4]]) = [[1; 2]; [3; 4]].
Proof.
  assert (Hshape : has_shape [[1; 2]; [3; 4]] 2 2)
    by (split; [reflexivity | repeat constructor]).
  assert (Heven : Nat.Even 2) by (exists 1%nat; reflexivity).
  exact (proj1 (crop_half_pad_double [[1; 2]; [3; 4]] 2 2 Hshape Heven Heven)).
Defined.

(** ** Parameter count *)

(** X24: [get_total_params] is the number of elements of the parameters
    that require a gradient: it is at most the number of elements of all
    parameters, it adds up over concatenated parameter sequences, and it is
    0 when every parameter is frozen. *)
Theorem get_total_params_counts_trainable (model model' : list parameter) :
  get_total_params model
  = list_sum (map nelement (filter requires_grad model))
  /\ (get_total_params model <= list_sum (map nelement model))%nat
  /\ get_total_params (model ++ model')
     = (get_total_params model + get_total_params model')%nat
  /\ (Forall (fun param => requires_grad param = false) model ->
      get_total_params model = 0%nat).
Proof.
  unfold get_total_params. split; [| split; [| split]].
  - induction model as [| p model IH]; [reflexivity |]. simpl.
    destruct (requires_grad p); simpl; rewrite IH; reflexivity.
  - induction model as [| p model IH]; [simpl; lia |]. simpl.
    destruct (requires_grad p); lia.
  - rewrite map_app, list_sum_app. reflexivity.
  - induction 1 as [| p model Hp _ IH]; [reflexivity |]. simpl.
    rewrite Hp, IH. reflexivity.
Qed.

Lemma get_total_params_counts_trainable_witness :
  get_total_params [ {| nelement := 6; requires_grad := false |};
                     {| nelement := 0; requires_grad := false |} ] = 0%nat.
Proof.
  apply (get_total_params_counts_trainable
           [ {| nelement := 6; requires_grad := false |};
             {| nelement := 0; requires_grad := false |} ] []).
  repeat constructor.
Defined.

(** ** Fourier-space polar coordinates *)

Lemma mesh_map2 (f : R -> R -> R) (a b : list R) :
  Torch.map2_2d f (fst (Torch.meshgrid_xy a b)) (snd (Torch.meshgrid_xy a b))
  = map (fun y => map (fun x => f x y) a) b.
Proof.
  unfold Torch.map2_2d, Torch.meshgrid_xy. cbn [fst snd].
  rewrite combine_map_same, map_map. apply map_ext. intros y. cbn [fst snd].
  rewrite <- (map_id a) at 1. rewrite combine_map_same, map_map. reflexivity.
Qed.

Lemma get2_map_map (g : R -> R -> R) (a b : list R) (i j : nat) :
  (i < length b)%nat -> (j < length a)%nat ->
  Np.get2 (map (fun y => map (fun x => g x y) a) b) i j
  = Ok (g (nth j a 0) (nth i b 0)).
Proof.
  intros Hi Hj. unfold Np.get2, Np.get.
  rewrite nth_error_map, (nth_error_nth' b 0 Hi). cbn [option_map bind].
  rewrite nth_error_map, (nth_error_nth' a 0 Hj). reflexivity.
Qed.

Lemma remainder_range (a b : R) :
  0 < b ->
  0 <= Torch.remainder a b < b
  /\ Torch.remainder a b = a - b * IZR (Zfloor (a / b)).
Proof.
  intros Hb. split; [| reflexivity]. unfold Torch.remainder.
  destruct (Zfloor_bound (a / b)) as [Hlo Hhi].
  assert (Hab : a = b * (a / b)) by (field; lra).
  split.
  - assert (b * IZR (Zfloor (a / b)) <= b * (a / b))
      by (apply Rmult_le_compat_l; lra).
    lra.
  - assert (b * (a / b) < b * (IZR (Zfloor (a / b)) + 1))
      by (apply Rmult_lt_compat_l; lra).
    lra.
Qed.

Lemma sin_cos_period_Z (x : R) (m : Z) :
  sin (x - 2 * PI * IZR m) = sin x /\ cos (x - 2 * PI * IZR m) = cos x.
Proof.
  destruct (Z.le_gt_cases 0 m) as [Hm | Hm].
  - rewrite <- (sin_period (x - 2 * PI * IZR m) (Z.to_nat m)),
            <- (cos_period (x - 2 * PI * IZR m) (Z.to_nat m)).
    rewrite INR_IZR_INZ, Z2Nat.id by exact Hm.
    replace (x - 2 * PI * IZR m + 2 * IZR m * PI) with x by ring. auto.
  - rewrite <- (sin_period x (Z.to_nat (- m))), <- (cos_period x (Z.to_nat (- m))).
    rewrite INR_IZR_INZ, Z2Nat.id, opp_IZR by lia.
    replace (x + 2 * - IZR m * PI) with (x - 2 * PI * IZR m) by ring. auto.
Qed.

(** X25: for [l <> 0], at every grid index [(i, j)] the angle
    [theta2D[i, j]] lies in [[0, 2 pi)], [k2D[i, j]] is nonnegative, and
    the two are polar coordinates of the frequency point
    [(fx1D[j], fy1D[i])] scaled by [N], with the angle measured from the
    negative [fy] axis: [N fx = k sin theta] and [N fy = - k cos theta]. *)
Theorem get_fourier_coord_polar (N : nat) (l : R) (i j : nat) :
  l <> 0 -> (i < N)%nat -> (j < N)%nat ->
  let '(k2D, theta2D) := get_fourier_coord N l in
  let f1D := Torch.linspace (- PI / l) (PI / l) N in
  exists k theta,
    Np.get2 k2D i j = Ok k
    /\ Np.get2 theta2D i j = Ok theta
    /\ 0 <= k
    /\ 0 <= theta < 2 * PI
    /\ INR N * nth j f1D 0 = k * sin theta
    /\ INR N * nth i f1D 0 = - (k * cos theta).
Proof.
  intros _ Hi Hj. unfold get_fourier_coord.
  set (f1D := Torch.linspace (- PI / l) (PI / l) N).
  assert (Hlen : length f1D = N).
  { unfold f1D, Torch.linspace. rewrite length_map, length_seq. reflexivity. }
  rewrite (surjective_pairing (Torch.meshgrid_xy f1D f1D)).
  rewrite !mesh_map2. cbv zeta.
  set (fx := nth j f1D 0). set (fy := nth i f1D 0).
  exists (sqrt (fx ^ 2 + fy ^ 2) * INR N),
         (Torch.remainder (Np.arctan2 fy fx + PI / 2) (2 * PI)).
  pose proof PI_RGT_0 as Hpi.
  destruct (remainder_range (Np.arctan2 fy fx + PI / 2) (2 * PI)) as [Hrange Hrem];
    [lra |].
  destruct (sin_cos_period_Z (Np.arctan2 fy fx + PI / 2)
              (Zfloor ((Np.arctan2 fy fx + PI / 2) / (2 * PI)))) as [Hsin Hcos].
  destruct (arctan2_polar fy fx) as (Hy & Hx & _).
  split; [rewrite get2_map_map by lia; reflexivity |].
  split.
  { apply (get2_map2d (fun theta => Torch.remainder theta (2 * PI)) _ i j
             (Np.arctan2 fy fx + PI / 2)).
    rewrite get2_map_map by lia. reflexivity. }
  split; [apply Rmult_le_pos; [apply sqrt_pos | apply pos_INR] |].
  split; [exact Hrange |].
  rewrite Hrem, Hsin, Hcos.
  rewrite sin_plus, cos_plus, sin_PI2, cos_PI2.
  replace (fx ^ 2 + fy ^ 2) with (fy ^ 2 + fx ^ 2) by ring.
  split.
  - rewrite <- Hx at 1. ring.
  - rewrite <- Hy at 1. ring.
Qed.

Lemma get_fourier_coord_polar_witness :
  let '(k2D, theta2D) := get_fourier_coord 3 1 in
  let f1D := Torch.linspace (- PI / 1) (PI / 1) 3 in
  exists k theta,
    Np.get2 k2D 0 2 = Ok k
    /\ Np.get2 theta2D 0 2 = Ok theta
    /\ 0 <= k
    /\ 0 <= theta < 2 * PI
    /\ INR 3 * nth 2 f1D 0 = k * sin theta
    /\ INR 3 * nth 0 f1D 0 = - (k * cos theta).
Proof.
  apply (get_fourier_coord_polar 3 1 0 2); [lra | lia | lia].
Defined.

(** X26: for [l <> 0] and [N >= 2] the frequency axis of
    [get_fourier_coord] runs in equal steps from [- pi / l] to [pi / l],
    [k2D] and [theta2D] have [N] rows and [N] columns, and [k2D] is
    symmetric: [k2D[i, j] = k2D[j, i]]. *)
Theorem get_fourier_coord_grid (N : nat) (l : R) :
  l <> 0 -> (2 <= N)%nat ->
  let '(k2D, theta2D) := get_fourier_coord N l in
  let f1D := Torch.linspace (- PI / l) (PI / l) N in
  nth 0 f1D 0 = - PI / l
  /\ nth (N - 1) f1D 0 = PI / l
  /\ (forall i, (S i < N)%nat ->
        nth (S i) f1D 0 - nth i f1D 0 = 2 * PI / l / INR (N - 1))
  /\ has_shape k2D N N
  /\ has_shape theta2D N N
  /\ forall i j, (i < N)%nat -> (j < N)%nat -> Np.get2 k2D i j = Np.get2 k2D j i.
Proof.
  intros Hl HN. unfold get_fourier_coord.
  set (f1D := Torch.linspace (- PI / l) (PI / l) N).
  assert (Hlen : length f1D = N).
  { unfold f1D, Torch.linspace. rewrite length_map, length_seq. reflexivity. }
  assert (Hnth : forall i, (i < N)%nat ->
            nth i f1D 0 = - PI / l + INR i * ((PI / l - - PI / l) / INR (N - 1))).
  { intros i Hi. unfold f1D, Torch.linspace. rewrite nth_map_seq by exact Hi.
    reflexivity. }
  assert (HN1 : INR (N - 1) <> 0) by (apply not_0_INR; lia).
  rewrite (surjective_pairing (Torch.meshgrid_xy f1D f1D)).
  rewrite !mesh_map2. cbv zeta.
  split; [rewrite Hnth by lia; simpl; ring |].
  split; [rewrite Hnth by lia; field; split; assumption |].
  split; [intros i Hi; rewrite !Hnth by lia; rewrite S_INR; field; split; assumption |].
  assert (Hshape : forall g : R -> R -> R,
            has_shape (map (fun y => map (fun x => g x y) f1D) f1D) N N).
  { intros g. split; [rewrite length_map; exact Hlen |].
    apply Forall_map, Forall_forall. intros y _. rewrite length_map. exact Hlen. }
  split; [apply Hshape |]. split; [apply map2d_shape, Hshape |].
  intros i j Hi Hj. rewrite !get2_map_map by lia. do 3 f_equal. ring.
Qed.

Lemma get_fourier_coord_grid_witness :
  let '(k2D, theta2D) := get_fourier_coord 3 2 in
  has_shape k2D 3 3 /\ has_shape theta2D 3 3
  /\ Np.get2 k2D 0 2 = Np.get2 k2D 2 0.
Proof.
  pose proof (get_fourier_coord_grid 3 2) as H.
  destruct (get_fourier_coord 3 2) as [k2D theta2D].
  destruct H as (_ & _ & _ & Hk & Ht & Hsym); [lra | lia |].
  split; [exact Hk |]. split; [exact Ht |]. apply Hsym; lia.
Defined.

(** ** Delay-and-sum: the ring error argument *)

Lemma transducer_lengths (R_ring : R) (pa_signal : list (list R)) :
  length (combine (x_transducer R_ring pa_signal) (y_transducer R_ring pa_signal))
  = length pa_signal.
Proof.
  rewrite length_combine. unfold x_transducer, y_transducer, angle_transducer,
    N_transducer. rewrite !length_map, length_seq. apply Nat.min_id.
Qed.

(** X27: on a grid with at least one point and a sinogram with at least one
    transducer, a ring error array whose length is neither 1 nor the number
    of transducers (itself not 1) makes the call raise [ValueError]: the
    arrays of line 68 do not broadcast. *)
Theorem delay_and_sum_ring_error_length
  (R_ring T_sample v0 : R) (pa_signal : list (list R)) (x_vec y_vec : list R)
  (d_delay : R) (err : list R) :
  pa_signal <> [] -> x_vec <> [] -> y_vec <> [] ->
  length err <> 1%nat -> length pa_signal <> 1%nat ->
  length err <> length pa_signal ->
  delay_and_sum R_ring T_sample v0 pa_signal x_vec y_vec d_delay (Array err)
  = Raise ValueError.
Proof.
  intros Hpa Hx Hy He1 Hp1 Hne. unfold delay_and_sum.
  destruct (Nat.eqb_spec (N_transducer pa_signal) 0) as [H0 | _].
  { unfold N_transducer in H0. destruct pa_signal; [congruence | discriminate]. }
  destruct x_vec as [| x x_vec]; [congruence |].
  destruct y_vec as [| y y_vec]; [congruence |].
  cbn [length seq foldM].
  assert (Hpix : pixel R_ring T_sample v0 pa_signal (x :: x_vec) (y :: y_vec)
                   d_delay (Array err) 0 0 = Raise ValueError).
  { unfold pixel, distance_to_transducer, add_ring_error, Np.broadcast2,
      Np.broadcast_dim.
    rewrite length_map, transducer_lengths.
    destruct (Nat.eqb_spec (length pa_signal) 1); [contradiction |].
    destruct (Nat.eqb_spec (length err) 1); [contradiction |].
    destruct (Nat.eqb_spec (length pa_signal) (length err)); [congruence |].
    reflexivity. }
  rewrite Hpix. reflexivity.
Qed.

Lemma delay_and_sum_ring_error_length_witness :
  delay_and_sum 1 1 1 [[5; 7]; [1; 2]] [0] [0] 0 (Array [0; 0; 0])
  = Raise ValueError.
Proof.
  apply (delay_and_sum_ring_error_length 1 1 1 [[5; 7]; [1; 2]] [0] [0] 0 [0; 0; 0]);
    simpl; (discriminate || lia).
Defined.

Lemma foldM_ext {A S : Type} (body body' : S -> A -> result S) (l : list A) :
  (forall acc x, body acc x = body' acc x) ->
  forall acc, foldM body l acc = foldM body' l acc.
Proof.
  intros Hb. induction l as [| x l IH]; intros acc; [reflexivity |]. simpl.
  rewrite Hb. destruct (body' acc x); simpl; [apply IH | reflexivity].
Qed.

(** X28: a ring error array that holds the same value [e] for every
    transducer gives the result of the scalar ring error [e]. *)
Theorem delay_and_sum_constant_ring_error
  (R_ring T_sample v0 : R) (pa_signal : list (list R)) (x_vec y_vec : list R)
  (d_delay e : R) :
  delay_and_sum R_ring T_sample v0 pa_signal x_vec y_vec d_delay
    (Array (repeat e (length pa_signal)))
  = delay_and_sum R_ring T_sample v0 pa_signal x_vec y_vec d_delay (Scalar e).
Proof.
  assert (Hdist : forall s t,
            distance_to_transducer R_ring pa_signal x_vec y_vec d_delay
              (Array (repeat e (length pa_signal))) s t
            = distance_to_transducer R_ring pa_signal x_vec y_vec d_delay
                (Scalar e) s t).
  { intros s t. unfold distance_to_transducer, add_ring_error.
    set (a := map _ (combine _ _)).
    assert (Ha : length a = length pa_signal)
      by (unfold a; rewrite length_map; apply transducer_lengths).
    unfold Np.broadcast2, Np.broadcast_dim. rewrite repeat_length, Ha.
    assert (Hn : (if (length pa_signal =? 1)%nat then Ok (length pa_signal)
                  else if (length pa_signal =? 1)%nat then Ok (length pa_signal)
                  else if (length pa_signal =? length pa_signal)%nat
                       then Ok (length pa_signal) else Raise ValueError)
                 = Ok (length pa_signal)).
    { destruct (length pa_signal =? 1)%nat; [reflexivity |].
      rewrite Nat.eqb_refl. reflexivity. }
    rewrite Hn. cbn [bind]. f_equal.
    rewrite <- Ha. clear Hn.
    assert (Hgen : forall l : list R, forall m : nat, length l = m ->
              map (fun i => Np.stretch l i + Np.stretch (repeat e m) i) (seq 0 m)
              = map (fun d => d + e) l).
    { intros l m Hm. apply (nth_ext _ _ 0 0).
      - rewrite !length_map, length_seq. lia.
      - intros i Hi. rewrite length_map, length_seq in Hi.
        rewrite nth_map_seq by exact Hi.
        rewrite (nth_map_lt (fun d => d + e)) by lia.
        unfold Np.stretch. rewrite repeat_length, Hm.
        destruct (Nat.eqb_spec m 1) as [-> | _].
        + replace i with 0%nat by lia. reflexivity.
        + rewrite nth_repeat_lt by exact Hi. reflexivity. }
    apply Hgen. reflexivity. }
  unfold delay_and_sum.
  destruct (N_transducer pa_signal =? 0)%nat; [reflexivity |].
  apply foldM_ext. intros acc s. apply foldM_ext. intros acc0 t.
  unfold pixel. rewrite Hdist. reflexivity.
Qed.

(** ** Delay-and-sum: scaling the sinogram *)

Lemma get_map {A B : Type} (g : A -> B) (l : list A) (i : nat) :
  Np.get (map g l) i = map_result g (Np.get l i).
Proof.
  unfold Np.get. rewrite nth_error_map.
  destruct (nth_error l i); reflexivity.
Qed.

Lemma set_map {A B : Type} (g : A -> B) (l : list A) (v : A) :
  forall i, Np.set (map g l) i (g v) = map_result (map g) (Np.set l i v).
Proof.
  induction l as [| x l IH]; intros i; [destruct i; reflexivity |].
  destruct i as [| i]; simpl; [reflexivity |].
  rewrite IH. destruct (Np.set l i v); reflexivity.
Qed.

Lemma get2_scale2d (c : R) (m : list (list R)) (i j : nat) :
  Np.get2 (scale2d c m) i j = map_result (fun u => c * u) (Np.get2 m i j).
Proof.
  unfold Np.get2, scale2d, map2d. rewrite get_map.
  destruct (Np.get m i) as [row | e]; simpl; [apply get_map | reflexivity].
Qed.

Lemma set2_scale2d (c : R) (m : list (list R)) (i j : nat) (v : R) :
  Np.set2 (scale2d c m) i j (c * v) = map_result (scale2d c) (Np.set2 m i j v).
Proof.
  unfold Np.set2, scale2d, map2d. rewrite get_map.
  destruct (Np.get m i) as [row | e]; simpl; [| reflexivity].
  rewrite (set_map (fun u => c * u) row v j).
  destruct (Np.set row j v) as [row' | e]; simpl; [| reflexivity].
  apply (set_map (map (fun u => c * u)) m row' i).
Qed.

Lemma mapM_map_result {A B : Type} (g : B -> B) (f f' : A -> result B) (l : list A) :
  (forall x, f' x = map_result g (f x)) ->
  mapM f' l = map_result (map g) (mapM f l).
Proof.
  intros Hf. induction l as [| x l IH]; [reflexivity |]. simpl.
  rewrite Hf. destruct (f x) as [y | e]; simpl; [| reflexivity].
  rewrite IH. destruct (mapM f l); reflexivity.
Qed.

Lemma foldM_map_result {A S : Type} (h : S -> S) (body body' : S -> A -> result S)
  (l : list A) :
  (forall acc x, body' (h acc) x = map_result h (body acc x)) ->
  forall acc, foldM body' l (h acc) = map_result h (foldM body l acc).
Proof.
  intros Hb. induction l as [| x l IH]; intros acc; [reflexivity |]. simpl.
  rewrite Hb. destruct (body acc x) as [acc' | e]; simpl; [apply IH | reflexivity].
Qed.

Lemma mean_scale (c : R) (l : list R) :
  Np.mean (map (fun u => c * u) l) = c * Np.mean l.
Proof.
  unfold Np.mean. rewrite length_map.
  rewrite (sum_map_scale (fun u => c * u) c) by (intros; ring).
  unfold Rdiv. ring.
Qed.

Lemma pixel_scale2d (c : R) (R_ring T_sample v0 : R) (pa_signal : list (list R))
  (x_vec y_vec : list R) (d_delay : R) (ring_error : scalar_or_array) (s t : nat) :
  pixel R_ring T_sample v0 (scale2d c pa_signal) x_vec y_vec d_delay ring_error s t
  = map_result (fun u => c * u)
      (pixel R_ring T_sample v0 pa_signal x_vec y_vec d_delay ring_error s t).
Proof.
  assert (HN : N_transducer (scale2d c pa_signal) = N_transducer pa_signal).
  { unfold N_transducer, scale2d, map2d. apply length_map. }
  assert (Hdist : distance_to_transducer R_ring (scale2d c pa_signal) x_vec y_vec
                    d_delay ring_error s t
                  = distance_to_transducer R_ring pa_signal x_vec y_vec
                      d_delay ring_error s t).
  { unfold distance_to_transducer, x_transducer, y_transducer, angle_transducer,
      delta_angle. rewrite HN. reflexivity. }
  assert (Hguard : forall id, guard (scale2d c pa_signal) id = guard pa_signal id).
  { intros id. unfold guard, Np.shape1, scale2d, map2d.
    destruct pa_signal as [| row m]; [reflexivity |]. simpl.
    rewrite length_map. reflexivity. }
  unfold pixel. rewrite Hdist, HN.
  destruct (distance_to_transducer R_ring pa_signal x_vec y_vec d_delay
              ring_error s t) as [dist | e]; [| reflexivity].
  cbn [bind].
  rewrite (mapM_map_result (fun u => c * u)
             (related T_sample v0 pa_signal dist)
             (related T_sample v0 (scale2d c pa_signal) dist)).
  - destruct (mapM (related T_sample v0 pa_signal dist)
                (seq 0 (N_transducer pa_signal))) as [data | e]; [| reflexivity].
    simpl. rewrite mean_scale. reflexivity.
  - intros k. unfold related.
    destruct (Np.get dist k) as [dk | e]; [| reflexivity]. cbn [bind].
    destruct (sample_index T_sample v0 dk) as [id | e]; [| reflexivity]. cbn [bind].
    rewrite Hguard. destruct (guard pa_signal id).
    + apply get2_scale2d.
    + simpl. rewrite Rmult_0_r. reflexivity.
Qed.

Lemma zeros2_scale2d (c : R) (h w : nat) :
  scale2d c (Np.zeros2 h w) = Np.zeros2 h w.
Proof.
  unfold scale2d, map2d, Np.zeros2, Np.zeros.
  rewrite !map_repeat, Rmult_0_r. reflexivity.
Qed.

(** X29: the beamformer is homogeneous in the sinogram: scaling every
    sample by [c] scales every pixel of the returned image by [c], and a
    call that raises still raises the same exception. *)
Theorem delay_and_sum_scales (c : R) (R_ring T_sample v0 : R)
  (pa_signal : list (list R)) (x_vec y_vec : list R) (d_delay : R)
  (ring_error : scalar_or_array) :
  delay_and_sum R_ring T_sample v0 (scale2d c pa_signal) x_vec y_vec d_delay
    ring_error
  = map_result (scale2d c)
      (delay_and_sum R_ring T_sample v0 pa_signal x_vec y_vec d_delay ring_error).
Proof.
  unfold delay_and_sum.
  assert (HN : N_transducer (scale2d c pa_signal) = N_transducer pa_signal).
  { unfold N_transducer, scale2d, map2d. apply length_map. }
  rewrite HN. destruct (N_transducer pa_signal =? 0)%nat; [reflexivity |].
  rewrite <- (zeros2_scale2d c (length x_vec) (length y_vec)) at 1.
  apply foldM_map_result. intros acc s.
  apply foldM_map_result. intros acc0 t.
  rewrite pixel_scale2d.
  destruct (pixel R_ring T_sample v0 pa_signal x_vec y_vec d_delay ring_error s t)
    as [v | e]; [| reflexivity].
  cbn [bind map_result]. apply set2_scale2d.
Qed.
